(** * BloomDBG: a shallow embedding of [BloomDBG/bloom-dbg.h]

    The first half of the file holds the embedding, in the order of the
    header: the integer helper [roundUpToMultiple], the iteration over the
    k-mers of a sequence, the Bloom filter queries, the translations between
    sequences and de Bruijn graph paths, path extension and splitting, the
    sequence trimmer and the body of the assembly loop.  The second half
    holds the properties.

    C++ [unsigned] and [size_t] values are integers of [Z] with the
    wrap-around of their width written out; [std::string] is a list of
    characters; a [Path<V>] is a list of vertices; a failed [assert], an
    exception and undefined behaviour are [None]. *)

From Stdlib Require Import ZArith Lia List Ascii String.
From stdpp Require Import base tactics option list list_numbers gmap strings pretty.

Local Open Scope Z_scope.

(** ** Machine integers *)

Module UInt.

(** The value of [x] after conversion to an unsigned type of [w] bits. *)
Definition wrap (w x : Z) : Z := x mod 2 ^ w.

(** [a % b] on unsigned operands; undefined (here [None]) when [b] is 0. *)
Definition rem (a b : Z) : option Z :=
  if b =? 0 then None else Some (a mod b).

Definition UINT_MAX : Z := 2 ^ 32 - 1.
Definition SIZE_MAX : Z := 2 ^ 64 - 1.

(** Conversion to [unsigned] and to [size_t]. *)
Definition u32 (x : Z) : Z := wrap 32 x.
Definition u64 (x : Z) : Z := wrap 64 x.

End UInt.

(** ** [roundUpToMultiple] (lines 32-41)

    [T] is an unsigned type of [w] bits; [num] and [base] range over
    [0 .. 2^w - 1].  The sum [num + base - remainder] is reduced modulo
    [2^w] when it is converted back to [T]. *)

Definition roundUpToMultiple (w : Z) (num base : Z) : option Z :=
  if base =? 0 then Some num
  else
    remainder ← UInt.rem num base;
    if remainder =? 0 then Some num
    else Some (UInt.wrap w (num + base - remainder)).

(** The rounding property read for all operands of the type. *)
Definition rounds_up_everywhere (w : Z) : Prop :=
  forall num base, 0 <= num < 2 ^ w -> 0 < base < 2 ^ w ->
    exists r, roundUpToMultiple w num base = Some r /\
              (base | r) /\ num <= r /\
              (forall m, (base | m) -> num <= m -> r <= m).

(** ** Sequences and k-mer windows *)

(** [Sequence] is [std::string]. *)
Definition Sequence : Type := list ascii.

Definition isACGT (c : ascii) : bool :=
  (c =? "A")%char || (c =? "C")%char || (c =? "G")%char || (c =? "T")%char.

(** [seq.substr(pos, len)]: throws [std::out_of_range] (here [None]) when
    [pos] is past the end, and stops at the end of the string. *)
Definition substr (s : Sequence) (pos len : Z) : option Sequence :=
  if Z.of_nat (length s) <? pos then None
  else Some (take (Z.to_nat len) (drop (Z.to_nat pos) s)).

(** The [k] characters of [s] that start at offset [pos]. *)
Definition kmerAt (s : Sequence) (k pos : nat) : Sequence :=
  take k (drop pos s).

(** A k-mer position: the window fits in [s] and holds only A, C, G, T. *)
Definition validKmerAt (s : Sequence) (k pos : nat) : bool :=
  (pos + k <=? length s)%nat && forallb isACGT (kmerAt s k pos).

Definition kmerPositions (s : Sequence) (k : nat) : list nat :=
  List.filter (validKmerAt s k) (seq 0 (length s + 1 - k)).

(** Direction of travel in the graph ([Graph/Path.h]). *)
Inductive Direction : Type := FORWARD | REVERSE.

(** A [Path<V>] is a sequence of vertices. *)
Definition Path (V : Type) : Type := list V.

(** ** The Bloom filter interface

    The functions of the header are templates over the filter type [BloomT]
    and use three of its members. *)

Class BloomT (B : Type) : Type := {
  getKmerSize : B -> nat;
  getHashNum : B -> nat;
  contains : B -> list Z -> bool
}.

(** Modelled from the spec: the [BloomFilter] class
    ([lib/bloomfilter/BloomFilter.hpp]) is not among the sources.  A filter
    is a bit array of [bf_size] bits, given here by the set of the indices
    of its set bits, with a number of hashes and a k-mer size; a hash value
    selects the bit at its remainder modulo the size. *)
Record BloomFilter : Type := mkBloomFilter {
  bf_bits : gset Z;
  bf_size : Z;
  bf_hashNum : nat;
  bf_kmerSize : nat
}.

Definition bf_index (F : BloomFilter) (h : Z) : Z := h mod bf_size F.

(** [contains] is true iff every hash-indexed bit is set. *)
Definition bf_contains (F : BloomFilter) (hashes : list Z) : bool :=
  forallb (fun h => bool_decide (bf_index F h ∈ bf_bits F)) hashes.

(** [insert] sets every hash-indexed bit. *)
Definition bf_insert (F : BloomFilter) (hashes : list Z) : BloomFilter :=
  {| bf_bits := bf_bits F ∪ list_to_set (bf_index F <$> hashes);
     bf_size := bf_size F;
     bf_hashNum := bf_hashNum F;
     bf_kmerSize := bf_kmerSize F |}.

(** [F'] has every bit of [F] set, with the same parameters. *)
Definition bloom_le (F F' : BloomFilter) : Prop :=
  bf_bits F ⊆ bf_bits F' /\ bf_size F' = bf_size F /\
  bf_hashNum F' = bf_hashNum F /\ bf_kmerSize F' = bf_kmerSize F.

#[export] Instance BloomFilter_BloomT : BloomT BloomFilter := {|
  getKmerSize := bf_kmerSize;
  getHashNum := bf_hashNum;
  contains := bf_contains
|}.

(** ** K-mers, rolling hashes and the iteration over a sequence *)

(** The classes [Kmer] ([Common/Kmer.h]) and [RollingHash]
    ([BloomDBG/RollingHash.h]) are not among the sources; the members that
    the header uses are parameters: the constructor of a k-mer from its
    string, [str()] and [getLastBaseChar()], and for the hash state its
    construction from a k-mer string and the hash values it yields. *)
Class KmerT (Kmer : Type) : Type := {
  Kmer_of : Sequence -> Kmer;
  Kmer_str : Kmer -> Sequence;
  Kmer_getLastBaseChar : Kmer -> ascii
}.

Class RollingHashT (RollingHash : Type) : Type := {
  rollingHashOf : nat -> nat -> Sequence -> RollingHash;
  getHash : RollingHash -> list Z
}.

(** What a [RollingHashIterator] exposes at one position: [pos()],
    [kmer()] and [rollingHash()]. *)
Record RHItem (RollingHash : Type) : Type := mkRHItem {
  it_pos : Z;
  it_kmer : Sequence;
  it_rollingHash : RollingHash
}.
Arguments mkRHItem {RollingHash} _ _ _.
Arguments it_pos {RollingHash} _.
Arguments it_kmer {RollingHash} _.
Arguments it_rollingHash {RollingHash} _.

Section Sequences.

Context {Kmer RollingHash : Type} `{!KmerT Kmer, !RollingHashT RollingHash}.

(** The hash values of the current k-mer, [*it]. *)
Definition it_hashes (it : RHItem RollingHash) : list Z :=
  getHash (it_rollingHash it).

(** Modelled from the spec: [RollingHashIterator]
    ([BloomDBG/RollingHashIterator.h]) is not among the sources.  It visits,
    in increasing order, the positions of [seq] whose window of [k]
    characters holds only A, C, G, T, skipping the others; at each position
    the hash state is that of the k-mer found there. *)
Definition itemAt (seq : Sequence) (k numHashes pos : nat)
  : RHItem RollingHash :=
  mkRHItem (Z.of_nat pos) (kmerAt seq k pos)
           (rollingHashOf numHashes k (kmerAt seq k pos)).

Definition RollingHashIterator (seq : Sequence) (k numHashes : nat)
  : list (RHItem RollingHash) :=
  itemAt seq k numHashes <$> kmerPositions seq k.

(** The loop of [allKmersInBloom], which returns at the first miss. *)
Fixpoint allContained {B : Type} `{!BloomT B} (bloom : B)
    (its : list (RHItem RollingHash)) : bool :=
  match its with
  | [] => true
  | it :: rest =>
      if negb (contains bloom (it_hashes it)) then false
      else allContained bloom rest
  end.

(** [allKmersInBloom] (lines 119-131); [None] is the failed assertion. *)
Definition allKmersInBloom {B : Type} `{!BloomT B} (seq : Sequence)
    (bloom : B) : option bool :=
  let k := getKmerSize bloom in
  let numHashes := getHashNum bloom in
  if (length seq <? k)%nat then None
  else Some (allContained bloom (RollingHashIterator seq k numHashes)).

(** Every k-mer of [seq] that the iterator visits is in [bloom]. *)
Definition everyKmerIn {B : Type} `{!BloomT B} (seq : Sequence) (bloom : B)
  : Prop :=
  forall it,
    it ∈ RollingHashIterator seq (getKmerSize bloom) (getHashNum bloom) ->
    contains bloom (it_hashes it) = true.

(** [addKmersToBloom] (lines 136-145). *)
Definition addKmersToBloom (seq : Sequence) (bloom : BloomFilter)
  : BloomFilter :=
  let k := bf_kmerSize bloom in
  let numHashes := bf_hashNum bloom in
  fold_left (fun bloom it => bf_insert bloom (it_hashes it))
            (RollingHashIterator seq k numHashes) bloom.

(** [seqToPath] (lines 151-164): one vertex per iterator position. *)
Definition seqToPath (seq : Sequence) (k numHashes : nat)
  : option (Path (Kmer * RollingHash)) :=
  if (length seq <? k)%nat then None
  else Some (fold_left
               (fun path it =>
                  path ++ [(Kmer_of (it_kmer it), it_rollingHash it)])
               (RollingHashIterator seq k numHashes) []).

(** [pathToSeq] (lines 170-183): the string of the first k-mer, then the
    last base of each following k-mer. *)
Definition pathToSeq (path : Path (Kmer * RollingHash)) : option Sequence :=
  match path with
  | [] => None
  | v :: rest =>
      Some (fold_left (fun seq v => seq ++ [Kmer_getLastBaseChar (v.1)])
                      rest (Kmer_str (v.1)))
  end.

End Sequences.

(** ** Paths in the graph *)

(** [trueBranches] ([Graph/ExtendPath.h]) is not among the sources: the
    branches of a vertex in a direction that are at least [minBranchLen]
    long are a parameter of the graph type. *)
Class GraphT (G V : Type) : Type := {
  trueBranches : V -> Direction -> G -> Z -> list V
}.

(** [path.erase(path.begin() + first, path.begin() + last)]; a range that
    is not within the path is undefined behaviour. *)
Definition erase {A : Type} (path : list A) (first last : Z)
  : option (list A) :=
  if (0 <=? first) && (first <=? last) && (last <=? Z.of_nat (length path))
  then Some (take (Z.to_nat first) path ++ drop (Z.to_nat last) path)
  else None.

Section Paths.

Context {G V : Type} `{Countable V} `{!GraphT G V}.

(** The vertex a path is extended from, and the extension by one vertex. *)
Definition pathEnd (dir : Direction) (path : Path V) : option V :=
  match dir with
  | FORWARD => last path
  | REVERSE => head path
  end.

Definition pathPush (dir : Direction) (w : V) (path : Path V) : Path V :=
  match dir with
  | FORWARD => path ++ [w]
  | REVERSE => w :: path
  end.

(** Modelled from the spec: the directional
    [extendPath(path, dir, graph, visited, minBranchLen, NO_LIMIT)]
    ([Graph/ExtendPath.h]) is not among the sources.  One vertex at a time:
    with [v] the current end, no true branch is a dead end and stops, two
    or more is a branching point and stops without appending, exactly one
    is appended unless it is already in the visited set, which stops the
    extension.  [fuel] bounds the number of steps; [None] is an empty path
    or fuel that ran out. *)
Fixpoint extendPathDir (fuel : nat) (path : Path V) (dir : Direction)
    (graph : G) (visited : gset V) (minBranchLen : Z)
  : option (Path V * gset V) :=
  match fuel with
  | O => None
  | S fuel' =>
      v ← pathEnd dir path;
      match trueBranches v dir graph minBranchLen with
      | [w] =>
          if decide (w ∈ visited) then Some (path, visited)
          else extendPathDir fuel' (pathPush dir w path) dir graph
                             ({[w]} ∪ visited) minBranchLen
      | _ => Some (path, visited)
      end
  end.

(** [extendPath] (lines 189-219).  [path.size() - 1] is computed in
    [size_t] and the minimum is stored in the [unsigned] [chopLen]. *)
Definition extendPath (fuel : nat) (path : Path V) (graph : G)
    (minBranchLen : Z) : option (Path V) :=
  let visited : gset V := ∅ in
  let size := Z.of_nat (length path) in
  let chopLen :=
    UInt.u32 (Z.min (UInt.u64 (size - 1)) (UInt.u64 minBranchLen)) in
  path ← erase path (size - chopLen) size;
  '(path, visited) ← extendPathDir fuel path FORWARD graph visited minBranchLen;
  let size := Z.of_nat (length path) in
  let chopLen :=
    UInt.u32 (Z.min (UInt.u64 (size - 1)) (UInt.u64 minBranchLen)) in
  path ← erase path 0 (0 + chopLen);
  '(path, visited) ← extendPathDir fuel path REVERSE graph visited minBranchLen;
  Some path.

(** The extension as the specification words it: drop the last
    [min (len - 1) minBranchLen] vertices and extend forward, then drop the
    first [min (len - 1) minBranchLen] vertices of the result and extend in
    reverse, with the visited set of the first phase. *)
Definition extendPath_spec (fuel : nat) (path : Path V) (graph : G)
    (minBranchLen : Z) : option (Path V) :=
  let chop := Nat.min (length path - 1) (Z.to_nat minBranchLen) in
  let path := take (length path - chop) path in
  '(path, visited) ← extendPathDir fuel path FORWARD graph ∅ minBranchLen;
  let chop := Nat.min (length path - 1) (Z.to_nat minBranchLen) in
  let path := drop chop path in
  '(path, visited) ← extendPathDir fuel path REVERSE graph visited minBranchLen;
  Some path.

(** The two degrees that [splitPath] computes, as [unsigned]. *)
Definition inDegree (v : V) (dbg : G) (minBranchLen : Z) : Z :=
  UInt.u32 (Z.of_nat (length (trueBranches v REVERSE dbg minBranchLen))).

Definition outDegree (v : V) (dbg : G) (minBranchLen : Z) : Z :=
  UInt.u32 (Z.of_nat (length (trueBranches v FORWARD dbg minBranchLen))).

Definition isBranching (dbg : G) (minBranchLen : Z) (v : V) : bool :=
  (1 <? inDegree v dbg minBranchLen) || (1 <? outDegree v dbg minBranchLen).

(** One iteration of the loop of [splitPath] on the pair
    [(splitPaths, currentPath)]. *)
Definition splitStep (dbg : G) (minBranchLen : Z)
    (st : list (Path V) * Path V) (v : V) : list (Path V) * Path V :=
  let '(splitPaths, currentPath) := st in
  let currentPath := currentPath ++ [v] in
  if isBranching dbg minBranchLen v
  then (splitPaths ++ [currentPath], [v])
  else (splitPaths, currentPath).

(** [splitPath] (lines 251-280). *)
Definition splitPath (path : Path V) (dbg : G) (minBranchLen : Z)
  : list (Path V) :=
  let '(splitPaths, currentPath) :=
    fold_left (splitStep dbg minBranchLen) path ([], []) in
  if (1 <? length currentPath)%nat then splitPaths ++ [currentPath]
  else splitPaths.

(** The loop of [splitPath] read as a recursion on the rest [l] of the
    path: the segments still to come when the current path is [cur]. *)
Fixpoint splitFrom (dbg : G) (minBranchLen : Z) (cur : Path V) (l : Path V)
  : list (Path V) :=
  match l with
  | [] => if (1 <? length cur)%nat then [cur] else []
  | v :: l' =>
      if isBranching dbg minBranchLen v
      then (cur ++ [v]) :: splitFrom dbg minBranchLen [v] l'
      else splitFrom dbg minBranchLen (cur ++ [v]) l'
  end.

(** Concatenation of segments in which the first vertex of each segment
    after the first one is the vertex shared with its predecessor. *)
Definition mergeSegments (segs : list (Path V)) : Path V :=
  match segs with
  | [] => []
  | s :: rest => s ++ concat (tail <$> rest)
  end.

End Paths.

(** ** [trimSeq] (lines 290-341) *)

(** The five [unsigned] variables of the scan. *)
Record TrimState : Type := mkTrimState {
  prevPos : Z;
  matchStart : Z;
  matchLen : Z;
  maxMatchStart : Z;
  maxMatchLen : Z
}.

Definition UNSET : Z := UInt.UINT_MAX.

Definition trimInit : TrimState :=
  mkTrimState UNSET UNSET 0 UNSET 0.

(** Keep the current match if it is longer than the best one so far. *)
Definition recordMatch (st : TrimState) : TrimState :=
  if negb (matchStart st =? UNSET) && (maxMatchLen st <? matchLen st)
  then mkTrimState (prevPos st) (matchStart st) (matchLen st)
                   (matchStart st) (matchLen st)
  else st.

Definition resetMatch (st : TrimState) : TrimState :=
  mkTrimState (prevPos st) UNSET 0 (maxMatchStart st) (maxMatchLen st).

Definition growMatch (pos : Z) (st : TrimState) : TrimState :=
  mkTrimState (prevPos st)
              (if matchStart st =? UNSET then UInt.u32 pos else matchStart st)
              (UInt.u32 (matchLen st + 1))
              (maxMatchStart st) (maxMatchLen st).

Definition setPrevPos (pos : Z) (st : TrimState) : TrimState :=
  mkTrimState (UInt.u32 pos) (matchStart st) (matchLen st)
              (maxMatchStart st) (maxMatchLen st).

(** The body of the loop followed by its increment [prevPos = it.pos()];
    [inSet] is [goodKmerSet.contains( *it)] and [pos] is [it.pos()]. *)
Definition trimBody (inSet : bool) (pos : Z) (st : TrimState) : TrimState :=
  let st :=
    if negb inSet
       || (negb (prevPos st =? UNSET)
           && (1 <? UInt.u64 (pos - prevPos st)))
    then resetMatch (recordMatch st) else st in
  let st := if inSet then growMatch pos st else st in
  setPrevPos pos st.

Section Trim.

Context {RollingHash : Type} `{!RollingHashT RollingHash}.
Context {B : Type} `{!BloomT B}.

Definition trimStep (goodKmerSet : B) (st : TrimState)
    (it : RHItem RollingHash) : TrimState :=
  trimBody (contains goodKmerSet (it_hashes it)) (it_pos it) st.

Definition trimSeq (seq : Sequence) (goodKmerSet : B) : option Sequence :=
  let k := getKmerSize goodKmerSet in
  let numHashes := getHashNum goodKmerSet in
  if (length seq <? k)%nat then Some []
  else
    let st := fold_left (trimStep goodKmerSet)
                        (RollingHashIterator seq k numHashes) trimInit in
    let st := recordMatch st in
    if maxMatchLen st =? 0 then Some []
    else substr seq (maxMatchStart st)
                (UInt.u32 (maxMatchLen st + Z.of_nat k - 1)).

(** Position [i] of [seq] starts a k-mer that the iterator visits and that
    the filter contains. *)
Definition goodAt (seq : Sequence) (goodKmerSet : B) (i : nat) : bool :=
  let k := getKmerSize goodKmerSet in
  validKmerAt seq k i
  && contains goodKmerSet
       (getHash (rollingHashOf (getHashNum goodKmerSet) k (kmerAt seq k i))).

(** [len] consecutive k-mer positions from [start] on, all of them good:
    the k-mers of the substring of [len + k - 1] characters at [start]. *)
Definition goodRun (seq : Sequence) (goodKmerSet : B) (start len : nat)
  : Prop :=
  (1 <= len)%nat /\
  forall i, (start <= i < start + len)%nat -> goodAt seq goodKmerSet i = true.

(** The same two predicates on [unsigned] positions. *)
Definition validZ (seq : Sequence) (k : nat) (z : Z) : bool :=
  (0 <=? z) && validKmerAt seq k (Z.to_nat z).

Definition goodZ (seq : Sequence) (goodKmerSet : B) (z : Z) : bool :=
  (0 <=? z) && goodAt seq goodKmerSet (Z.to_nat z).

End Trim.

(** The invariant of the scan when every position below [c] has been
    visited or skipped; [valid] tells the positions the iterator visits and
    [good] those whose k-mer the filter contains. *)
Record TrimInv (valid good : Z -> bool) (c : Z) (st : TrimState) : Prop := {
  inv_len : 0 <= matchLen st;
  inv_max : 0 <= maxMatchLen st;
  inv_unset :
    prevPos st = UNSET ->
    (forall i, 0 <= i < c -> valid i = false) /\
    matchLen st = 0 /\ maxMatchLen st = 0;
  inv_prev :
    prevPos st <> UNSET ->
    0 <= prevPos st < c /\ valid (prevPos st) = true /\
    (forall i, prevPos st < i < c -> valid i = false);
  inv_idle :
    matchLen st = 0 ->
    matchStart st = UNSET /\
    (prevPos st <> UNSET -> good (prevPos st) = false);
  inv_run :
    0 < matchLen st ->
    prevPos st <> UNSET /\ 0 <= matchStart st /\
    matchStart st + matchLen st = prevPos st + 1 /\
    (forall i, matchStart st <= i <= prevPos st -> good i = true) /\
    (matchStart st = 0 \/ good (matchStart st - 1) = false);
  inv_best :
    0 < maxMatchLen st ->
    0 <= maxMatchStart st /\
    (forall i, maxMatchStart st <= i < maxMatchStart st + maxMatchLen st ->
               good i = true) /\
    maxMatchStart st + maxMatchLen st
    <= (if 0 <? matchLen st then matchStart st else c);
  inv_longest :
    forall s L, 1 <= L -> (forall i, s <= i < s + L -> good i = true) ->
      s + L <= c ->
      (0 < matchLen st /\ matchStart st <= s) \/
      (L <= maxMatchLen st /\ (L = maxMatchLen st -> maxMatchStart st <= s))
}.

(** ** [assemble] (lines 359-466) *)

Record FastaRecord : Type := mkFastaRecord {
  fr_id : string;
  fr_seq : Sequence
}.

(** [AssemblyCounters] (lines 225-233); the fields are [size_t]. *)
Record AssemblyCounters : Type := mkAssemblyCounters {
  readsExtended : Z;
  readsProcessed : Z;
  basesAssembled : Z
}.

(** What the loop shares between reads: the filter of assembled k-mers, the
    next contig number, the records written to [out] and the counters. *)
Record AssemblyState : Type := mkAssemblyState {
  assembledKmerSet : BloomFilter;
  contigID : Z;
  out : list FastaRecord;
  counters : AssemblyCounters
}.

(** [RollingBloomDBG<BloomT>]: the graph view of a filter. *)
Record RollingBloomDBG (B : Type) : Type := mkRollingBloomDBG {
  dbg_bloom : B
}.
Arguments mkRollingBloomDBG {B} _.
Arguments dbg_bloom {B} _.

Definition addBasesAssembled (len : Z) (c : AssemblyCounters)
  : AssemblyCounters :=
  mkAssemblyCounters (readsExtended c) (readsProcessed c)
                     (UInt.u64 (basesAssembled c + len)).

Definition incrReadsExtended (st : AssemblyState) : AssemblyState :=
  mkAssemblyState (assembledKmerSet st) (contigID st) (out st)
    (mkAssemblyCounters (UInt.u64 (readsExtended (counters st) + 1))
                        (readsProcessed (counters st))
                        (basesAssembled (counters st))).

Definition incrReadsProcessed (st : AssemblyState) : AssemblyState :=
  mkAssemblyState (assembledKmerSet st) (contigID st) (out st)
    (mkAssemblyCounters (readsExtended (counters st))
                        (UInt.u64 (readsProcessed (counters st) + 1))
                        (basesAssembled (counters st))).

(** The FASTA identifier [<contigID> read:<id>]. *)
Definition contigName (n : Z) (readId : string) : string :=
  pretty (Z.to_N n) +:+ " read:" +:+ readId.

Section Assemble.

Context {Kmer RollingHash : Type} `{!KmerT Kmer, !RollingHashT RollingHash}.
Context `{Countable (Kmer * RollingHash)}.
Context {B : Type} `{!BloomT B}.
Context `{!GraphT (RollingBloomDBG B) (Kmer * RollingHash)}.

(** The first half of the critical section [out] (line 435): the k-mers of
    the contig enter the filter. *)
Definition insertContig (seq : Sequence) (st : AssemblyState)
  : AssemblyState :=
  mkAssemblyState (addKmersToBloom seq (assembledKmerSet st))
                  (contigID st) (out st) (counters st).

(** The second half (lines 436-446): the record is written and counted. *)
Definition writeContig (readId : string) (seq : Sequence)
    (st : AssemblyState) : AssemblyState :=
  let contig := mkFastaRecord (contigName (contigID st) readId) seq in
  let len := UInt.u32 (Z.of_nat (length seq)) in
  mkAssemblyState (assembledKmerSet st)
                  (UInt.u64 (contigID st + 1))
                  (out st ++ [contig])
                  (addBasesAssembled len (counters st)).

(** The critical section [out] (lines 433-447). *)
Definition emitContig (readId : string) (seq : Sequence)
    (st : AssemblyState) : option AssemblyState :=
  covered ← allKmersInBloom seq (assembledKmerSet st);
  if negb covered then Some (writeContig readId seq (insertContig seq st))
  else Some st.

(** A succession of critical sections [out], for the contigs of any reads
    and workers, in the order in which they are entered. *)
Fixpoint emitAll (contigs : list (string * Sequence)) (st : AssemblyState)
  : option AssemblyState :=
  match contigs with
  | [] => Some st
  | (readId, seq) :: rest =>
      st ← emitContig readId seq st;
      emitAll rest st
  end.

(** The decision to skip a read (lines 400-411). *)
Definition skipRead (goodKmerSet : B) (rec : FastaRecord)
    (st : AssemblyState) : option bool :=
  let k := getKmerSize goodKmerSet in
  let skip := (length (fr_seq rec) <? k)%nat in
  skip ← (if negb skip
          then allGood ← allKmersInBloom (fr_seq rec) goodKmerSet;
               Some (if negb allGood then true else skip)
          else Some skip);
  if negb skip
  then covered ← allKmersInBloom (fr_seq rec) (assembledKmerSet st);
       Some (if (covered : bool) then true else skip)
  else Some skip.

(** The loop over the split paths (lines 421-448); [i] is the index of the
    head of [paths] among the [n] paths. *)
Fixpoint processPaths (fuel : nat) (graph : RollingBloomDBG B)
    (minBranchLen : Z) (readId : string) (n i : nat)
    (paths : list (Path (Kmer * RollingHash))) (st : AssemblyState)
  : option AssemblyState :=
  match paths with
  | [] => Some st
  | path :: rest =>
      path ← (if (i =? 0)%nat || (i =? n - 1)%nat
              then extendPath fuel path graph minBranchLen
              else Some path);
      seq ← pathToSeq path;
      st ← emitContig readId seq st;
      processPaths fuel graph minBranchLen readId n (S i) rest st
  end.

(** The body of the loop over the reads (lines 400-457), without the
    progress message. *)
Definition processRead (fuel : nat) (goodKmerSet : B)
    (graph : RollingBloomDBG B) (rec : FastaRecord) (st : AssemblyState)
  : option AssemblyState :=
  let k := getKmerSize goodKmerSet in
  let numHashes := getHashNum goodKmerSet in
  let minBranchLen := UInt.u32 (Z.of_nat k + 1) in
  skip ← skipRead goodKmerSet rec st;
  st ← (if negb skip
        then path ← seqToPath (fr_seq rec) k numHashes;
             let paths := splitPath path graph minBranchLen in
             st ← processPaths fuel graph minBranchLen (fr_id rec)
                    (length paths) 0 paths st;
             Some (incrReadsExtended st)
        else Some st);
  Some (incrReadsProcessed st).

Fixpoint assembleReads (fuel : nat) (goodKmerSet : B)
    (graph : RollingBloomDBG B) (reads : list FastaRecord)
    (st : AssemblyState) : option AssemblyState :=
  match reads with
  | [] => Some st
  | rec :: rest =>
      st ← processRead fuel goodKmerSet graph rec st;
      assembleReads fuel goodKmerSet graph rest st
  end.

(** [assemble] with one worker: the reads are taken in input order. *)
Definition assemble (fuel : nat) (reads : list FastaRecord) (genomeSize : Z)
    (goodKmerSet : B) : option AssemblyState :=
  size ← roundUpToMultiple 64 genomeSize 64;
  let assembled :=
    mkBloomFilter ∅ size (getHashNum goodKmerSet) (getKmerSize goodKmerSet) in
  assembleReads fuel goodKmerSet (mkRollingBloomDBG goodKmerSet) reads
    (mkAssemblyState assembled 0 [] (mkAssemblyCounters 0 0 0)).

End Assemble.

(** ** Instances used to run the embedding on concrete inputs *)

Module Toy.

(** A k-mer that keeps the bases it was built from. *)
Definition Kmer : Type := Sequence.
Definition Kmer_of (s : Sequence) : Kmer := s.
Definition Kmer_str (km : Kmer) : Sequence := km.
Definition Kmer_getLastBaseChar (km : Kmer) : ascii := List.last km "A"%char.

Definition baseCode (c : ascii) : Z :=
  if (c =? "A")%char then 0 else if (c =? "C")%char then 1
  else if (c =? "G")%char then 2 else 3.

(** A polynomial hash of the k-mer, repeated and offset per hash number. *)
Definition RollingHash : Type := list Z.
Definition rollingHashOf (numHashes k : nat) (kmer : Sequence) : RollingHash :=
  let h := fold_left (fun a c => 4 * a + baseCode c) kmer 0 in
  (fun i => h + Z.of_nat i) <$> seq 0 numHashes.
Definition getHash (rh : RollingHash) : list Z := rh.

Definition seqOf (s : string) : Sequence := list_ascii_of_string s.

(** A filter of 256 bits, one hash, k = 4. *)
Definition emptyFilter : BloomFilter :=
  {| bf_bits := ∅; bf_size := 256; bf_hashNum := 1; bf_kmerSize := 4 |}.

(** A graph on numbers: vertex 2 has two forward branches, vertex 5 two
    reverse branches; every other vertex below 10 has its predecessor as
    only reverse branch and, below 7, its successor as only forward
    branch. *)
Definition trueBranches (v : nat) (d : Direction) (minBranchLen : Z)
  : list nat :=
  match d with
  | FORWARD => if (v =? 2)%nat then [3; 7]%nat
               else if (v <? 7)%nat then [S v] else []
  | REVERSE => if (v =? 5)%nat then [4; 9]%nat
               else match v with
                    | O => []
                    | S u => if (v <? 10)%nat then [u] else []
                    end
  end.

Definition vertices : gset nat := list_to_set (seq 0 10).

End Toy.

#[export] Instance Toy_KmerT : KmerT Toy.Kmer := {|
  Kmer_of := Toy.Kmer_of;
  Kmer_str := Toy.Kmer_str;
  Kmer_getLastBaseChar := Toy.Kmer_getLastBaseChar
|}.

#[export] Instance Toy_RollingHashT : RollingHashT Toy.RollingHash := {|
  rollingHashOf := Toy.rollingHashOf;
  getHash := Toy.getHash
|}.

#[export] Instance Toy_GraphT : GraphT unit nat := {|
  trueBranches := fun v d _ minBranchLen => Toy.trueBranches v d minBranchLen
|}.

(** ** A run of the embedding on concrete data *)

Module ToyRun.

Definition V : Type := (Toy.Kmer * Toy.RollingHash)%type.

(** The k-mer next to [km] by base [b] in direction [d]. *)
Definition shiftKmer (d : Direction) (km : Sequence) (b : ascii) : Sequence :=
  match d with
  | FORWARD => tail km ++ [b]
  | REVERSE => b :: removelast km
  end.

(** The neighbours of a vertex that the filter contains, in the order
    A, C, G, T; every branch counts as a true branch. *)
Definition neighbours (v : V) (d : Direction)
    (g : RollingBloomDBG BloomFilter) (minBranchLen : Z) : list V :=
  List.filter
    (fun w : V => bf_contains (dbg_bloom g) (Toy.getHash (w.2)))
    ((fun b => let km := shiftKmer d (v.1) b in
               (km, Toy.rollingHashOf (bf_hashNum (dbg_bloom g))
                                      (bf_kmerSize (dbg_bloom g)) km))
     <$> ["A"; "C"; "G"; "T"]%char).

(** The filter of the 4-mers of ACGTACGTAC. *)
Definition good : BloomFilter :=
  addKmersToBloom (RollingHash := Toy.RollingHash)
    (Toy.seqOf "ACGTACGTAC") Toy.emptyFilter.

(** A sequence without a repeated 3-mer, and the filter of its 4-mers:
    the graph of that filter is a single unbranched path. *)
Definition linear : Sequence := Toy.seqOf "AACAGATCCGCTGGTT".

Definition goodLinear : BloomFilter :=
  addKmersToBloom (RollingHash := Toy.RollingHash) linear Toy.emptyFilter.

Definition start : AssemblyState :=
  mkAssemblyState Toy.emptyFilter 0 [] (mkAssemblyCounters 0 0 0).

Definition readLinear : FastaRecord := mkFastaRecord "r1" linear.

Definition readInner : FastaRecord :=
  mkFastaRecord "r2" (Toy.seqOf "CAGATCCGCTGG").

Definition readShort : FastaRecord := mkFastaRecord "r3" (Toy.seqOf "ACG").

Definition readError : FastaRecord :=
  mkFastaRecord "r4" (Toy.seqOf "AACAGTTT").

End ToyRun.

#[export] Instance ToyRun_GraphT
  : GraphT (RollingBloomDBG BloomFilter) ToyRun.V := {|
  trueBranches := ToyRun.neighbours
|}.

(** ** Loading sequences into a filter (lines 49-113) *)

Section Load.

Context {RollingHash : Type} `{!RollingHashT RollingHash}.

(** [loadSeq] (lines 49-58). *)
Definition loadSeq (bloom : BloomFilter) (seq : Sequence) : BloomFilter :=
  let k := bf_kmerSize bloom in
  let numHashes := bf_hashNum bloom in
  fold_left (fun bloom it => bf_insert bloom (it_hashes it))
            (RollingHashIterator seq k numHashes) bloom.

Definition BUFFER_SIZE : Z := 100000.
Definition LOAD_PROGRESS_STEP : Z := 10000.

(** The critical section [in] of [loadFile] (lines 86-93): sequences are
    read from [input] while the reader is good and fewer than
    [BUFFER_SIZE] characters are buffered.  The result is the buffer and
    what is left of the input. *)
Fixpoint fillBuffer (input : list Sequence) (buffer : list Sequence)
    (bufferSize : Z) : list Sequence * list Sequence :=
  if bufferSize <? BUFFER_SIZE then
    match input with
    | [] => (buffer, [])
    | seq :: rest =>
        fillBuffer rest (buffer ++ [seq])
                   (UInt.u64 (bufferSize + Z.of_nat (length seq)))
    end
  else (buffer, input).

(** The loop over the buffer (lines 96-106); [readCount] is counted when
    [verbose] is set. *)
Definition loadBuffer (verbose : bool) (buffer : list Sequence)
    (st : BloomFilter * Z) : BloomFilter * Z :=
  fold_left
    (fun st seq =>
       (loadSeq (st.1) seq,
        if verbose then UInt.u64 (st.2 + 1) else st.2))
    buffer st.

(** The loop of [loadFile] (lines 81-107) with one worker; [fuel] bounds
    the number of buffers. *)
Fixpoint loadLoop (fuel : nat) (verbose : bool) (input : list Sequence)
    (st : BloomFilter * Z) : option (BloomFilter * Z) :=
  match fuel with
  | O => None
  | S fuel' =>
      let '(buffer, rest) := fillBuffer input [] 0 in
      if (length buffer =? 0)%nat then Some st
      else loadLoop fuel' verbose rest (loadBuffer verbose buffer st)
  end.

(** [loadFile] (lines 68-113) on a file whose reader yields the sequences
    [input]: the filter and [readCount] at the end; [None] is the failed
    assertion on an empty path.  The progress messages are left out. *)
Definition loadFile (bloom : BloomFilter) (path : string) (verbose : bool)
    (input : list Sequence) : option (BloomFilter * Z) :=
  if decide (path = ""%string) then None
  else loadLoop (S (length input)) verbose input (bloom, 0).

End Load.

(** ** [GraphvizBFSVisitor] (lines 473-577) *)

(** The source and target of an edge ([Graph] library) are parameters. *)
Class EdgeT (E G V : Type) : Type := {
  source : E -> G -> V;
  target : E -> G -> V
}.

(** The visitor: what it has written to its stream and its two counters
    ([size_t]). *)
Record GraphvizBFSVisitor : Type := mkGraphvizBFSVisitor {
  m_out : list ascii;
  m_nodesVisited : Z;
  m_edgesVisited : Z
}.

(** The hooks that a breadth-first search invokes. *)
Inductive VisitorEvent (E V : Type) : Type :=
| initialize_vertex (v : V)
| discover_vertex (v : V)
| examine_vertex (v : V)
| finish_vertex (v : V)
| examine_edge (e : E)
| gray_target (e : E)
| black_target (e : E)
| non_tree_edge (e : E)
| tree_edge (e : E).
Arguments initialize_vertex {E V} _.
Arguments discover_vertex {E V} _.
Arguments examine_vertex {E V} _.
Arguments finish_vertex {E V} _.
Arguments examine_edge {E V} _.
Arguments gray_target {E V} _.
Arguments black_target {E V} _.
Arguments non_tree_edge {E V} _.
Arguments tree_edge {E V} _.

Definition TAB : ascii := ascii_of_nat 9.
Definition NL : ascii := ascii_of_nat 10.

Section Visitor.

Context {Kmer RollingHash : Type} `{!KmerT Kmer}.
Context {E G : Type} `{!EdgeT E G (Kmer * RollingHash)}.

(** The constructor (lines 482-487) on a stream that holds [out]. *)
Definition visitorNew (out : list ascii) : GraphvizBFSVisitor :=
  mkGraphvizBFSVisitor (out ++ list_ascii_of_string "digraph g {" ++ [NL])
                       0 0.

(** The destructor (lines 490-494): the stream at the end. *)
Definition visitorDelete (vis : GraphvizBFSVisitor) : list ascii :=
  m_out vis ++ list_ascii_of_string "}" ++ [NL].

(** The line of a vertex (line 504) and of an edge (lines 527-528). *)
Definition vertexLine (v : Kmer * RollingHash) : list ascii :=
  [TAB] ++ Kmer_str (v.1) ++ list_ascii_of_string ";" ++ [NL].

Definition edgeLine (u v : Kmer * RollingHash) : list ascii :=
  [TAB] ++ Kmer_str (u.1) ++ list_ascii_of_string " -> "
        ++ Kmer_str (v.1) ++ list_ascii_of_string ";" ++ [NL].

(** One hook call (lines 497-555). *)
Definition visitorStep (g : G) (vis : GraphvizBFSVisitor)
    (ev : VisitorEvent E (Kmer * RollingHash)) : GraphvizBFSVisitor :=
  match ev with
  | discover_vertex v =>
      mkGraphvizBFSVisitor (m_out vis ++ vertexLine v)
                           (UInt.u64 (m_nodesVisited vis + 1))
                           (m_edgesVisited vis)
  | examine_edge e =>
      mkGraphvizBFSVisitor
        (m_out vis ++ edgeLine (source e g) (target e g))
        (m_nodesVisited vis)
        (UInt.u64 (m_edgesVisited vis + 1))
  | _ => vis
  end.

Definition getNumNodesVisited (vis : GraphvizBFSVisitor) : Z :=
  m_nodesVisited vis.

Definition getNumEdgesVisited (vis : GraphvizBFSVisitor) : Z :=
  m_edgesVisited vis.

(** The line, if any, that an event writes. *)
Definition eventLine (g : G) (ev : VisitorEvent E (Kmer * RollingHash))
  : list ascii :=
  match ev with
  | discover_vertex v => vertexLine v
  | examine_edge e => edgeLine (source e g) (target e g)
  | _ => []
  end.

Definition isDiscover (ev : VisitorEvent E (Kmer * RollingHash)) : bool :=
  match ev with discover_vertex _ => true | _ => false end.

Definition isExamineEdge (ev : VisitorEvent E (Kmer * RollingHash)) : bool :=
  match ev with examine_edge _ => true | _ => false end.

End Visitor.

(** ** Measures used in the statements *)

(** The [unsigned len] that the loop of [assemble] adds to
    [basesAssembled] for a record. *)
Definition recordBases (rec : FastaRecord) : Z :=
  UInt.u32 (Z.of_nat (length (fr_seq rec))).

Definition sumBases (recs : list FastaRecord) : Z :=
  fold_right (fun rec acc => recordBases rec + acc) 0 recs.

(** The counters that are [size_t] hold values of that type. *)
Definition inRange (st : AssemblyState) : Prop :=
  0 <= contigID st < 2 ^ 64 /\
  0 <= basesAssembled (counters st) < 2 ^ 64.

Section Emission.

Context {RollingHash : Type} `{!RollingHashT RollingHash}.

(** From [st] to [st'] the records [new] were written, in this order, for
    reads whose identifiers satisfy [P]: the output, the contig number and
    [basesAssembled] have advanced by them, the filter has grown and holds
    the k-mers of each of them. *)
Definition Emitted (P : string -> Prop) (st st' : AssemblyState)
    (new : list FastaRecord) : Prop :=
  out st' = out st ++ new /\
  contigID st' = UInt.u64 (contigID st + Z.of_nat (length new)) /\
  basesAssembled (counters st')
  = UInt.u64 (basesAssembled (counters st) + sumBases new) /\
  bloom_le (assembledKmerSet st) (assembledKmerSet st') /\
  (forall rec, rec ∈ new ->
     allKmersInBloom (RollingHash := RollingHash) (fr_seq rec)
       (assembledKmerSet st') = Some true) /\
  (forall i rec, new !! i = Some rec ->
     exists readId, P readId /\
       fr_id rec = contigName (UInt.u64 (contigID st + Z.of_nat i)) readId).

End Emission.

(** ** A sequence longer than [UINT_MAX] *)

Module ToyLong.




End ToyLong.

(** * Properties *)

(** ** Machine integers *)

Lemma wrap_small w x : 0 <= x < 2 ^ w -> UInt.wrap w x = x.
Proof. intros Hx. unfold UInt.wrap. now apply Z.mod_small. Qed.

Lemma u32_small x : 0 <= x <= UInt.UINT_MAX -> UInt.u32 x = x.
Proof. intros Hx. apply wrap_small. unfold UInt.UINT_MAX in Hx. lia. Qed.

Lemma u64_small x : 0 <= x <= UInt.SIZE_MAX -> UInt.u64 x = x.
Proof. intros Hx. apply wrap_small. unfold UInt.SIZE_MAX in Hx. lia. Qed.

(** ** [roundUpToMultiple] *)

Example roundUpToMultiple_100_64 : roundUpToMultiple 64 100 64 = Some 128.
Proof. reflexivity. Qed.

Example roundUpToMultiple_128_64 : roundUpToMultiple 64 128 64 = Some 128.
Proof. reflexivity. Qed.

Example roundUpToMultiple_base0 : roundUpToMultiple 64 77 0 = Some 77.
Proof. reflexivity. Qed.

Lemma roundUpToMultiple_total w num base :
  exists r, roundUpToMultiple w num base = Some r.
Proof.
  unfold roundUpToMultiple, UInt.rem.
  destruct (base =? 0) eqn:Hb; [eauto|]. simpl.
  destruct (num mod base =? 0); eauto.
Qed.

(** Without the conversion back to [T] the result is the least multiple. *)
Lemma round_up_least num base :
  0 <= num -> 0 < base ->
  let r := if num mod base =? 0 then num else num + base - num mod base in
  (base | r) /\ num <= r /\ r < num + base /\
  (forall m, (base | m) -> num <= m -> r <= m).
Proof.
  intros Hn Hb r.
  pose proof (Z.mod_pos_bound num base Hb) as Hm.
  pose proof (Z.div_mod num base ltac:(lia)) as Hd.
  assert (Hr : r = base * (if num mod base =? 0 then num / base
                           else num / base + 1)).
  { subst r. destruct (num mod base =? 0) eqn:E.
    - apply Z.eqb_eq in E. lia.
    - lia. }
  assert (Hge : num <= r /\ r < num + base).
  { subst r. destruct (num mod base =? 0) eqn:E.
    - apply Z.eqb_eq in E. lia.
    - apply Z.eqb_neq in E. lia. }
  split; [|split; [lia|split; [lia|]]].
  - rewrite Hr. apply Z.divide_factor_l.
  - intros m [q Hq] Hle. subst m.
    destruct (Z_lt_le_dec (q * base) r) as [Hlt|]; [|lia]. exfalso.
    destruct (num mod base =? 0) eqn:E.
    + lia.
    + rewrite Hr in Hlt. apply Z.eqb_neq in E.
      assert (q < num / base + 1) by nia.
      assert (q * base <= (num / base) * base) by nia.
      lia.
Qed.

(** C8 as first stated fails: with [size_t] operands, rounding
    [2^64 - 1] up to a multiple of 64 wraps around to 0. *)
Lemma roundUpToMultiple_wraps : ~ rounds_up_everywhere 64.
Proof.
  intros Hall.
  destruct (Hall (2 ^ 64 - 1) 64) as (r & Hr & _ & Hle & _); [lia | lia |].
  vm_compute in Hr. injection Hr as <-. lia.
Qed.

(** C8 (amended): [roundUpToMultiple] always returns a value, so the
    remainder is never taken with a zero divisor; with [base = 0] it returns
    [num] unchanged; with [base > 0], and provided some multiple of [base]
    that is at least [num] is representable in the type, it returns the
    smallest multiple of [base] greater than or equal to [num]. *)
Theorem roundUpToMultiple_spec (w num base : Z) :
  0 <= num < 2 ^ w -> 0 <= base < 2 ^ w ->
  (exists r, roundUpToMultiple w num base = Some r) /\
  (base = 0 -> roundUpToMultiple w num base = Some num) /\
  (0 < base ->
   (exists m, (base | m) /\ num <= m < 2 ^ w) ->
   exists r, roundUpToMultiple w num base = Some r /\
             (base | r) /\ num <= r < 2 ^ w /\
             (forall m, (base | m) -> num <= m -> r <= m)).
Proof.
  intros Hn Hb. split; [apply roundUpToMultiple_total|]. split.
  - intros ->. reflexivity.
  - intros Hpos (m & Hdiv & Hm).
    destruct (round_up_least num base ltac:(lia) Hpos) as (Hd & Hge & Hlt & Hmin).
    pose proof (Hmin m Hdiv ltac:(lia)) as Hrm.
    unfold roundUpToMultiple, UInt.rem.
    destruct (base =? 0) eqn:E0; [apply Z.eqb_eq in E0; lia|]. simpl.
    destruct (num mod base =? 0) eqn:E.
    + exists num. repeat split; try lia; assumption.
    + exists (num + base - num mod base).
      rewrite wrap_small by lia.
      repeat split; try lia; assumption.
Qed.

Lemma roundUpToMultiple_spec_witness :
  roundUpToMultiple 64 100 64 = Some 128 /\
  exists r, roundUpToMultiple 64 100 64 = Some r /\
            (64 | r) /\ 100 <= r < 2 ^ 64 /\
            (forall m, (64 | m) -> 100 <= m -> r <= m).
Proof.
  split; [reflexivity|].
  refine (proj2 (proj2 (roundUpToMultiple_spec 64 100 64 _ _)) _ _).
  - lia.
  - lia.
  - lia.
  - exists 128. split; [exists 2; reflexivity | lia].
Defined.

(** ** K-mer windows *)

Lemma length_kmerAt s k pos :
  (pos + k <= length s)%nat -> length (kmerAt s k pos) = k.
Proof. intros Hfit. unfold kmerAt. rewrite length_take, length_drop. lia. Qed.

Lemma kmerAt_snoc s k pos c :
  s !! (pos + k)%nat = Some c -> kmerAt s (S k) pos = kmerAt s k pos ++ [c].
Proof.
  intros Hc. unfold kmerAt. apply take_S_r. now rewrite lookup_drop.
Qed.

Lemma filter_all_true {A} (f : A -> bool) (l : list A) :
  (forall x, In x l -> f x = true) -> List.filter f l = l.
Proof.
  induction l as [|a l IH]; intros Hall; simpl; [reflexivity|].
  rewrite (Hall a) by now left.
  f_equal. apply IH. intros x Hx. apply Hall. now right.
Qed.

Lemma forallb_isACGT_kmerAt (s : Sequence) k pos :
  forallb isACGT s = true -> forallb isACGT (kmerAt s k pos) = true.
Proof.
  rewrite !forallb_forall. intros Hs c Hc. apply Hs.
  unfold kmerAt in Hc. apply list_elem_of_In in Hc. apply list_elem_of_In.
  apply elem_of_take in Hc as (i & Hi & _).
  rewrite lookup_drop in Hi. eapply list_elem_of_lookup_2; eassumption.
Qed.

Lemma kmerPositions_all (s : Sequence) k :
  forallb isACGT s = true ->
  kmerPositions s k = seq 0 (length s + 1 - k).
Proof.
  intros Hs. unfold kmerPositions. apply filter_all_true.
  intros pos Hpos. apply in_seq in Hpos. unfold validKmerAt.
  rewrite forallb_isACGT_kmerAt by assumption.
  rewrite andb_true_r. apply Nat.leb_le. lia.
Qed.

Lemma kmerPositions_valid s k pos :
  In pos (kmerPositions s k) <-> validKmerAt s k pos = true.
Proof.
  unfold kmerPositions. rewrite filter_In, in_seq. split; [tauto|].
  intros Hv. split; [|assumption].
  unfold validKmerAt in Hv. apply andb_true_iff in Hv as [Hv _].
  apply Nat.leb_le in Hv. lia.
Qed.

Lemma validKmerAt_fits s k pos :
  validKmerAt s k pos = true -> (pos + k <= length s)%nat.
Proof.
  unfold validKmerAt. intros Hv. apply andb_true_iff in Hv as [Hv _].
  now apply Nat.leb_le in Hv.
Qed.

(** ** The round trip between sequences and paths *)

Lemma fold_left_snoc {A C} (g : A -> C) (l : list A) (init : list C) :
  fold_left (fun acc x => acc ++ [g x]) l init = init ++ (g <$> l).
Proof.
  revert init. induction l as [|a l IH]; intros init; simpl.
  - now rewrite app_nil_r.
  - rewrite IH, <- app_assoc. reflexivity.
Qed.

Section Roundtrip.

Context {Kmer RollingHash : Type} `{!KmerT Kmer, !RollingHashT RollingHash}.

Variable k : nat.

(** What the round trip needs from the k-mer class: a k-mer built from
    [k] bases gives them back. *)
Hypothesis Kmer_str_of :
  forall s : Sequence, length s = k -> forallb isACGT s = true ->
    Kmer_str (Kmer_of s) = s.

Hypothesis Kmer_getLastBaseChar_of :
  forall (s : Sequence) c, length (s ++ [c]) = k ->
    forallb isACGT (s ++ [c]) = true ->
    Kmer_getLastBaseChar (Kmer_of (s ++ [c])) = c.

Lemma seqToPath_fmap (s : Sequence) (numHashes : nat) :
  (k <= length s)%nat ->
  seqToPath (Kmer := Kmer) (RollingHash := RollingHash) s k numHashes =
  Some ((fun pos => (Kmer_of (kmerAt s k pos),
                     rollingHashOf numHashes k (kmerAt s k pos)))
        <$> kmerPositions s k).
Proof.
  intros Hk. unfold seqToPath.
  destruct (length s <? k)%nat eqn:E; [apply Nat.ltb_lt in E; lia|].
  rewrite fold_left_snoc. unfold RollingHashIterator.
  rewrite <- list_fmap_compose. reflexivity.
Qed.

Lemma last_bases (s : Sequence) :
  (1 <= k)%nat -> (k <= length s)%nat -> forallb isACGT s = true ->
  (fun pos => Kmer_getLastBaseChar (Kmer_of (kmerAt s k pos)))
  <$> seq 1 (length s - k) = drop k s.
Proof.
  intros Hk1 Hk Hs. apply list_eq. intros i.
  rewrite list_lookup_fmap, lookup_drop.
  destruct (decide (i < length s - k)%nat) as [Hi|Hi].
  - rewrite lookup_seq_lt by assumption. simpl.
    destruct (lookup_lt_is_Some_2 s (k + i)) as [c Hc]; [lia|].
    rewrite Hc. f_equal.
    destruct k as [|k']; [lia|].
    rewrite (kmerAt_snoc s k' (S i) c)
      by (rewrite <- Hc; f_equal; lia).
    apply Kmer_getLastBaseChar_of.
    + rewrite <- (kmerAt_snoc s k' (S i) c)
        by (rewrite <- Hc; f_equal; lia).
      apply length_kmerAt. lia.
    + rewrite <- (kmerAt_snoc s k' (S i) c)
        by (rewrite <- Hc; f_equal; lia).
      now apply forallb_isACGT_kmerAt.
  - rewrite lookup_seq_ge by lia. simpl.
    symmetry. apply lookup_ge_None. lia.
Qed.

(** C2: for every string [s] of A, C, G, T with [|s| >= k], where
    [k >= 1], and every number of hashes,
    [pathToSeq (seqToPath s k numHashes)] is [s], given a k-mer class that
    gives back the [k] bases a k-mer was built from. *)
Theorem pathToSeq_seqToPath (s : Sequence) (numHashes : nat) :
  (1 <= k)%nat -> (k <= length s)%nat -> forallb isACGT s = true ->
  seqToPath (Kmer := Kmer) (RollingHash := RollingHash) s k numHashes
    ≫= pathToSeq = Some s.
Proof.
  intros Hk1 Hk Hs.
  rewrite seqToPath_fmap by assumption. simpl.
  rewrite kmerPositions_all by assumption.
  replace (length s + 1 - k)%nat with (S (length s - k)) by lia.
  simpl. f_equal.
  rewrite fold_left_snoc, <- list_fmap_compose.
  rewrite Kmer_str_of.
  - etransitivity; [|apply (take_drop k s)].
    f_equal. unfold compose. simpl. now apply last_bases.
  - apply length_kmerAt. lia.
  - now apply forallb_isACGT_kmerAt.
Qed.

End Roundtrip.

Lemma Toy_Kmer_str_of (s : Sequence) :
  length s = 4%nat -> forallb isACGT s = true -> Kmer_str (Kmer_of s) = s.
Proof. reflexivity. Qed.

Lemma Toy_Kmer_getLastBaseChar_of (s : Sequence) c :
  length (s ++ [c]) = 4%nat -> forallb isACGT (s ++ [c]) = true ->
  Kmer_getLastBaseChar (Kmer_of (s ++ [c])) = c.
Proof. intros _ _. simpl. unfold Toy.Kmer_getLastBaseChar. apply last_last. Qed.

Lemma pathToSeq_seqToPath_witness :
  seqToPath (Kmer := Toy.Kmer) (RollingHash := Toy.RollingHash)
    (Toy.seqOf "ACGTACGTAC") 4 1 ≫= pathToSeq
  = Some (Toy.seqOf "ACGTACGTAC").
Proof.
  apply (pathToSeq_seqToPath 4 Toy_Kmer_str_of Toy_Kmer_getLastBaseChar_of).
  - lia.
  - simpl. lia.
  - reflexivity.
Defined.

Example seqToPath_short :
  seqToPath (Kmer := Toy.Kmer) (RollingHash := Toy.RollingHash)
    (Toy.seqOf "ACG") 4 1 = None.
Proof. reflexivity. Qed.

(** ** [splitPath] *)

Section SplitPath.

Context {G V : Type} `{Countable V} `{!GraphT G V}.

Variable dbg : G.
Variable minBranchLen : Z.

Lemma fold_splitStep (l : Path V) (sp : list (Path V)) (cur : Path V) :
  (let '(splitPaths, currentPath) :=
     fold_left (splitStep dbg minBranchLen) l (sp, cur) in
   if (1 <? length currentPath)%nat then splitPaths ++ [currentPath]
   else splitPaths)
  = sp ++ splitFrom dbg minBranchLen cur l.
Proof.
  revert sp cur. induction l as [|v l IH]; intros sp cur; simpl.
  - destruct (1 <? length cur)%nat; [reflexivity | now rewrite app_nil_r].
  - destruct (isBranching dbg minBranchLen v) eqn:Ev.
    + rewrite IH, <- app_assoc. reflexivity.
    + apply IH.
Qed.

Lemma splitPath_splitFrom (p : Path V) :
  splitPath p dbg minBranchLen = splitFrom dbg minBranchLen [] p.
Proof. unfold splitPath. apply (fold_splitStep p [] []). Qed.

Lemma tail_snoc (cur : Path V) (v : V) :
  cur <> [] -> tail (cur ++ [v]) = tail cur ++ [v].
Proof. destruct cur; [congruence | reflexivity]. Qed.

(** Dropping the shared first vertex of every segment leaves the vertices
    that follow the first one. *)
Lemma splitFrom_tails (cur l : Path V) :
  cur <> [] -> concat (tail <$> splitFrom dbg minBranchLen cur l) = tail cur ++ l.
Proof.
  revert cur. induction l as [|v l IH]; intros cur Hcur; simpl.
  - destruct cur as [|a [|b cur]]; [congruence| reflexivity |].
    simpl. now rewrite !app_nil_r.
  - destruct (isBranching dbg minBranchLen v) eqn:Ev; simpl.
    + rewrite IH by congruence. rewrite tail_snoc by assumption.
      simpl. now rewrite <- app_assoc.
    + rewrite IH by (destruct cur; simpl; congruence).
      rewrite tail_snoc by assumption. now rewrite <- app_assoc.
Qed.

Lemma splitFrom_merge (cur l : Path V) :
  cur <> [] -> (l <> [] \/ (1 < length cur)%nat) ->
  mergeSegments (splitFrom dbg minBranchLen cur l) = cur ++ l.
Proof.
  revert cur. induction l as [|v l IH]; intros cur Hcur Hlen; simpl.
  - destruct Hlen as [Hl|Hl]; [congruence|].
    apply Nat.ltb_lt in Hl. rewrite Hl. simpl. reflexivity.
  - destruct (isBranching dbg minBranchLen v) eqn:Ev; simpl.
    + rewrite splitFrom_tails by congruence. simpl.
      now rewrite <- app_assoc.
    + rewrite IH.
      * now rewrite <- app_assoc.
      * destruct cur; simpl; congruence.
      * right. rewrite length_app. simpl. destruct cur; [congruence|].
        simpl. lia.
Qed.

Lemma splitFrom_head (cur l : Path V) (s : Path V) :
  cur <> [] -> head (splitFrom dbg minBranchLen cur l) = Some s ->
  head s = head cur.
Proof.
  revert cur. induction l as [|v l IH]; intros cur Hcur; simpl.
  - destruct (1 <? length cur)%nat; simpl; [|congruence].
    intros [= <-]. reflexivity.
  - destruct (isBranching dbg minBranchLen v) eqn:Ev; simpl.
    + intros [= <-]. destruct cur; [congruence | reflexivity].
    + intros Hs. rewrite (IH (cur ++ [v])); [| |assumption].
      * destruct cur; [congruence | reflexivity].
      * destruct cur; simpl; congruence.
Qed.

(** Consecutive segments share a branching vertex. *)
Lemma splitFrom_shared (cur l : Path V) (i : nat) (s s' : Path V) :
  splitFrom dbg minBranchLen cur l !! i = Some s ->
  splitFrom dbg minBranchLen cur l !! S i = Some s' ->
  exists v, last s = Some v /\ head s' = Some v /\
            isBranching dbg minBranchLen v = true.
Proof.
  revert cur i. induction l as [|v l IH]; intros cur i; simpl.
  - destruct (1 <? length cur)%nat; simpl.
    + destruct i; simpl; congruence.
    + congruence.
  - destruct (isBranching dbg minBranchLen v) eqn:Ev.
    + destruct i as [|i]; simpl.
      * intros [= <-] Hs'. exists v. rewrite last_snoc.
        split; [reflexivity|]. split; [|assumption].
        apply (splitFrom_head [v] l s'); [congruence|].
        now rewrite head_lookup.
      * apply IH.
    + apply IH.
Qed.

(** No vertex strictly inside a segment is branching; in the first segment
    the first vertex is not branching either, unless it is the last. *)
Lemma removelast_snoc (l : Path V) (v : V) : removelast (l ++ [v]) = l.
Proof. apply removelast_last. Qed.

Lemma Forall_removelast (P : V -> Prop) (l : Path V) :
  Forall P l -> Forall P (removelast l).
Proof.
  induction 1 as [|x l Hx Hl IH]; simpl; [constructor|].
  destruct l; [constructor|]. constructor; assumption.
Qed.

Lemma tail_removelast (l : Path V) : tail (removelast l) = removelast (tail l).
Proof. destruct l as [|a [|b l]]; reflexivity. Qed.

Lemma splitFrom_first_inner (cur l : Path V) (s : Path V) :
  Forall (fun v => isBranching dbg minBranchLen v = false) cur ->
  head (splitFrom dbg minBranchLen cur l) = Some s ->
  Forall (fun v => isBranching dbg minBranchLen v = false) (removelast s).
Proof.
  revert cur. induction l as [|v l IH]; intros cur Hcur; simpl.
  - destruct (1 <? length cur)%nat; simpl; [|congruence].
    intros [= <-]. now apply Forall_removelast.
  - destruct (isBranching dbg minBranchLen v) eqn:Ev; simpl.
    + intros [= <-]. now rewrite removelast_snoc.
    + apply IH. apply Forall_app. split; [assumption|].
      constructor; [assumption|constructor].
Qed.

Lemma splitFrom_inner (cur l : Path V) (i : nat) (s : Path V) :
  Forall (fun v => isBranching dbg minBranchLen v = false) (tail cur) ->
  splitFrom dbg minBranchLen cur l !! i = Some s ->
  Forall (fun v => isBranching dbg minBranchLen v = false)
         (tail (removelast s)).
Proof.
  revert cur i. induction l as [|v l IH]; intros cur i Hcur; simpl.
  - destruct (1 <? length cur)%nat; [|now rewrite lookup_nil].
    destruct i as [|i]; simpl; [|now rewrite lookup_nil]. intros [= <-].
    rewrite tail_removelast. now apply Forall_removelast.
  - destruct (isBranching dbg minBranchLen v) eqn:Ev.
    + destruct i as [|i]; simpl.
      * intros [= <-]. now rewrite removelast_snoc.
      * apply IH. simpl. constructor.
    + apply IH. destruct cur as [|a cur]; simpl in *.
      * constructor.
      * apply Forall_app. split; [assumption|].
        constructor; [assumption|constructor].
Qed.

(** A first vertex that is branching is returned as a segment of its
    own. *)
Lemma splitPath_branching_first (v : V) (l : Path V) :
  isBranching dbg minBranchLen v = true ->
  head (splitPath (v :: l) dbg minBranchLen) = Some [v].
Proof.
  intros Hv. rewrite splitPath_splitFrom. simpl. now rewrite Hv.
Qed.

(** Every segment after the first has at least two vertices. *)
Lemma splitFrom_later_length (cur l : Path V) (i : nat) (s : Path V) :
  cur <> [] -> splitFrom dbg minBranchLen cur l !! i = Some s ->
  (2 <= length s)%nat.
Proof.
  revert cur i. induction l as [|v l IH]; intros cur i Hcur; simpl.
  - destruct (1 <? length cur)%nat eqn:E; [|now rewrite lookup_nil].
    destruct i as [|i]; simpl; [|now rewrite lookup_nil]. intros [= <-].
    now apply Nat.ltb_lt in E.
  - destruct (isBranching dbg minBranchLen v) eqn:Ev.
    + destruct i as [|i]; simpl.
      * intros [= <-]. rewrite length_app. simpl.
        destruct cur; [congruence|]. simpl. lia.
      * apply IH. congruence.
    + apply IH. destruct cur; simpl; congruence.
Qed.

(** C5 (amended): unless [p] is a single vertex that is not branching, the
    segments of [splitPath p] merged at their shared vertices give [p]
    back; two consecutive segments share a vertex, the last of the one and
    the first of the other, and it is branching; no vertex strictly inside
    a segment is branching. *)
Theorem splitPath_cover (p : Path V) :
  let segs := splitPath p dbg minBranchLen in
  ((2 <= length p)%nat \/
   (exists v, p = [v] /\ isBranching dbg minBranchLen v = true) ->
   mergeSegments segs = p) /\
  (forall i s s', segs !! i = Some s -> segs !! S i = Some s' ->
     exists v, last s = Some v /\ head s' = Some v /\
               isBranching dbg minBranchLen v = true) /\
  (forall i s, segs !! i = Some s ->
     Forall (fun v => isBranching dbg minBranchLen v = false)
            (tail (removelast s))).
Proof.
  intros segs. subst segs. rewrite splitPath_splitFrom.
  split; [|split].
  - intros Hp. destruct p as [|v l]; [destruct Hp as [Hp|(v & Hp & _)];
      [simpl in Hp; lia | congruence]|].
    simpl. destruct (isBranching dbg minBranchLen v) eqn:Ev.
    + simpl. rewrite splitFrom_tails by congruence. reflexivity.
    + apply (splitFrom_merge [v] l); [congruence|].
      destruct Hp as [Hp|(v' & Hp & Hv')].
      * left. destruct l; [simpl in Hp; lia | congruence].
      * injection Hp as Hv Hl. subst. congruence.
  - intros i s s'. apply splitFrom_shared.
  - intros i s. apply splitFrom_inner. constructor.
Qed.

End SplitPath.

Example splitPath_two_cuts :
  splitPath [1; 2; 3; 4; 5; 6]%nat tt 5
  = [[1; 2]; [2; 3; 4; 5]; [5; 6]]%nat.
Proof. reflexivity. Qed.

Example splitPath_branching_last : splitPath [1; 2]%nat tt 5 = [[1; 2]%nat].
Proof. reflexivity. Qed.

Lemma splitPath_cover_witness :
  mergeSegments (splitPath [1; 2; 3; 4; 5; 6]%nat tt 5)
  = [1; 2; 3; 4; 5; 6]%nat.
Proof.
  apply (proj1 (splitPath_cover tt 5 [1; 2; 3; 4; 5; 6]%nat)).
  left. simpl. lia.
Defined.

(** C5 as first stated fails: a path of one vertex that is not branching
    is split into no segment at all, so nothing is left to merge. *)
Lemma splitPath_single_vertex_lost :
  isBranching tt 5 1%nat = false /\
  splitPath [1%nat] tt 5 = [] /\
  mergeSegments (splitPath [1%nat] tt 5) <> [1%nat].
Proof. split; [reflexivity|]. split; [reflexivity|]. discriminate. Qed.

(** C4: on a path whose first vertex is branching, the first segment that
    [splitPath] returns is that vertex alone. *)
Theorem splitPath_leading_singleton :
  isBranching tt 5 2%nat = true /\
  splitPath [2; 3; 4]%nat tt 5 = [[2]; [2; 3; 4]]%nat /\
  exists s, In s (splitPath [2; 3; 4]%nat tt 5) /\ (length s < 2)%nat.
Proof.
  split; [reflexivity|]. split; [reflexivity|].
  exists [2%nat]. split; [now left | simpl; lia].
Qed.

(** ** [extendPath] *)

Lemma erase_tail {A} (path : list A) (chop : nat) :
  (chop <= length path)%nat ->
  erase path (Z.of_nat (length path) - Z.of_nat chop)
        (Z.of_nat (length path))
  = Some (take (length path - chop) path).
Proof.
  intros Hchop. unfold erase.
  rewrite !(proj2 (Z.leb_le _ _)) by lia. cbn [andb].
  rewrite Nat2Z.id, drop_all, app_nil_r.
  do 2 f_equal. lia.
Qed.

Lemma erase_front {A} (path : list A) (chop : nat) :
  (chop <= length path)%nat ->
  erase path 0 (0 + Z.of_nat chop) = Some (drop chop path).
Proof.
  intros Hchop. unfold erase.
  rewrite !(proj2 (Z.leb_le _ _)) by lia. cbn [andb].
  rewrite Z.add_0_l, Nat2Z.id. reflexivity.
Qed.

(** The chop length of a non-empty path, without wrap-around. *)
Lemma chopLen_nat {A} (path : list A) (minBranchLen : Z) :
  path <> [] -> Z.of_nat (length path) <= UInt.SIZE_MAX ->
  0 <= minBranchLen <= UInt.UINT_MAX ->
  UInt.u32 (Z.min (UInt.u64 (Z.of_nat (length path) - 1))
                  (UInt.u64 minBranchLen))
  = Z.of_nat (Nat.min (length path - 1) (Z.to_nat minBranchLen)).
Proof.
  intros Hne Hlen Hm.
  assert (1 <= length path)%nat by (destruct path; [congruence|simpl; lia]).
  rewrite !u64_small by (unfold UInt.SIZE_MAX, UInt.UINT_MAX in *; lia).
  rewrite u32_small; lia.
Qed.

Section ExtendPath.

Context {G V : Type} `{Countable V} `{!GraphT G V}.

Variable graph : G.
Variable minBranchLen : Z.

Lemma pathPush_nonempty dir (w : V) (path : Path V) : pathPush dir w path <> [].
Proof. destruct dir, path; simpl; congruence. Qed.

Lemma pathEnd_nonempty dir (path : Path V) :
  path <> [] -> exists v, pathEnd dir path = Some v.
Proof.
  intros Hne. destruct dir; simpl.
  - destruct (last path) eqn:E; [eauto|].
    apply last_None in E. congruence.
  - destruct path; [congruence|]. simpl. eauto.
Qed.

(** A directional phase only adds vertices, at the end it extends. *)
Lemma extendPathDir_adds fuel (path : Path V) dir visited path' visited' :
  extendPathDir fuel path dir graph visited minBranchLen
    = Some (path', visited') ->
  path <> [] /\
  (length path <= length path' <= length path + fuel)%nat /\
  visited ⊆ visited' /\
  match dir with
  | FORWARD => path `prefix_of` path'
  | REVERSE => path `suffix_of` path'
  end.
Proof.
  revert path visited. induction fuel as [|fuel IH]; intros path visited;
    simpl; [discriminate|].
  destruct (pathEnd dir path) as [v|] eqn:Ev; simpl; [|discriminate].
  assert (Hne : path <> []) by (intros ->; destruct dir; discriminate).
  assert (Hstop : Some (path, visited) = Some (path', visited') ->
    path <> [] /\ (length path <= length path' <= length path + S fuel)%nat /\
    visited ⊆ visited' /\
    match dir with
    | FORWARD => path `prefix_of` path'
    | REVERSE => path `suffix_of` path'
    end).
  { intros [= <- <-]. split; [assumption|]. split; [lia|].
    split; [reflexivity|]. destruct dir; reflexivity. }
  destruct (trueBranches v dir graph minBranchLen) as [|w [|w' ws]];
    [exact Hstop | | exact Hstop].
  destruct (decide (w ∈ visited)); [exact Hstop|].
  intros Hrec. apply IH in Hrec as (_ & Hlen & Hvis & Hext).
  split; [assumption|]. split; [|split].
  - destruct dir; simpl in Hlen; rewrite ?length_app in Hlen; simpl in Hlen; lia.
  - etransitivity; [apply union_subseteq_r | exact Hvis].
  - destruct dir; simpl in Hext.
    + eapply prefix_app_l. eassumption.
    + eapply suffix_cons_l. eassumption.
Qed.

Section Finite.

(** The vertices of the graph are finitely many. *)
Variable vertices : gset V.

Hypothesis trueBranches_closed :
  forall v dir w, w ∈ trueBranches v dir graph minBranchLen -> w ∈ vertices.

(** With more fuel than there are unvisited vertices a phase halts. *)
Lemma extendPathDir_halts fuel (path : Path V) dir (visited : gset V) :
  path <> [] -> (size (vertices ∖ visited) < fuel)%nat ->
  exists path' visited',
    extendPathDir fuel path dir graph visited minBranchLen
    = Some (path', visited').
Proof.
  revert path visited. induction fuel as [|fuel IH]; intros path visited
    Hne Hfuel; [lia|]. simpl.
  destruct (pathEnd_nonempty dir path Hne) as [v Hv]. rewrite Hv. simpl.
  destruct (trueBranches v dir graph minBranchLen) as [|w [|w' ws]] eqn:Eb;
    [eauto | | eauto].
  destruct (decide (w ∈ visited)) as [Hin|Hout]; [eauto|].
  apply IH; [apply pathPush_nonempty|].
  assert (Hw : w ∈ vertices).
  { apply (trueBranches_closed v dir). rewrite Eb. now left. }
  assert (Hlt : (size (vertices ∖ ({[w]} ∪ visited))
                 < size (vertices ∖ visited))%nat).
  { apply subset_size. split.
    - intros x Hx. apply elem_of_difference in Hx as [Hx Hn].
      apply elem_of_difference. split; [assumption|].
      intros Hv'. apply Hn. now apply elem_of_union_r.
    - intros Hsub.
      assert (Hin : w ∈ vertices ∖ visited)
        by (apply elem_of_difference; split; assumption).
      apply Hsub, elem_of_difference in Hin as [_ Hn].
      apply Hn, elem_of_union_l, elem_of_singleton. reflexivity. }
  lia.
Qed.

(** C9: on a non-empty path, in a graph of finitely many vertices and with
    fuel for all of them, [extendPath] returns a non-empty path: the first
    chop leaves a non-empty prefix of the path, the forward phase extends
    that prefix at its end, the second chop leaves a non-empty suffix of
    the result, and the reverse phase extends that suffix at its start. *)
Theorem extendPath_nonempty fuel (path : Path V) :
  path <> [] ->
  Z.of_nat (length path) + Z.of_nat fuel <= UInt.SIZE_MAX ->
  0 <= minBranchLen <= UInt.UINT_MAX ->
  (size vertices < fuel)%nat ->
  exists chop1 kept1 path1 visited1 chop2 kept2 path2 visited2,
    (chop1 <= length path - 1)%nat /\
    kept1 = take (length path - chop1) path /\ kept1 <> [] /\
    extendPathDir fuel kept1 FORWARD graph ∅ minBranchLen
      = Some (path1, visited1) /\
    kept1 `prefix_of` path1 /\
    (chop2 <= length path1 - 1)%nat /\
    kept2 = drop chop2 path1 /\ kept2 <> [] /\
    extendPathDir fuel kept2 REVERSE graph visited1 minBranchLen
      = Some (path2, visited2) /\
    kept2 `suffix_of` path2 /\
    extendPath fuel path graph minBranchLen = Some path2 /\
    path2 <> [].
Proof.
  intros Hne Hlen Hm Hfuel.
  assert (Hsize : forall X : gset V, (size (vertices ∖ X) < fuel)%nat).
  { intros X. eapply Nat.le_lt_trans; [|exact Hfuel].
    apply subseteq_size. intros x Hx.
    apply elem_of_difference in Hx. tauto. }
  assert (Hlen1 : (1 <= length path)%nat)
    by (destruct path; [congruence|simpl; lia]).
  set (chop1 := Nat.min (length path - 1) (Z.to_nat minBranchLen)).
  set (kept1 := take (length path - chop1) path).
  assert (Hk1 : kept1 <> []).
  { intros E. apply (f_equal length) in E. subst kept1.
    rewrite length_take in E. simpl in E. lia. }
  destruct (extendPathDir_halts fuel kept1 FORWARD ∅ Hk1 (Hsize _))
    as (path1 & visited1 & H1).
  destruct (extendPathDir_adds _ _ _ _ _ _ H1) as (_ & Hl1 & _ & Hp1).
  assert (Hlk : (length kept1 <= length path)%nat).
  { subst kept1. rewrite length_take. lia. }
  assert (Hk1len : (1 <= length kept1)%nat)
    by (destruct kept1; [congruence|simpl; lia]).
  set (chop2 := Nat.min (length path1 - 1) (Z.to_nat minBranchLen)).
  set (kept2 := drop chop2 path1).
  assert (Hk2 : kept2 <> []).
  { intros E. apply (f_equal length) in E. subst kept2.
    rewrite length_drop in E. simpl in E. lia. }
  destruct (extendPathDir_halts fuel kept2 REVERSE visited1 Hk2 (Hsize _))
    as (path2 & visited2 & H2).
  destruct (extendPathDir_adds _ _ _ _ _ _ H2) as (_ & Hl2 & _ & Hp2).
  exists chop1, kept1, path1, visited1, chop2, kept2, path2, visited2.
  split; [lia|]. split; [reflexivity|]. split; [assumption|].
  split; [assumption|]. split; [assumption|]. split; [lia|].
  split; [reflexivity|]. split; [assumption|]. split; [assumption|].
  split; [assumption|]. split.
  - unfold extendPath.
    rewrite chopLen_nat by (try assumption; lia). fold chop1.
    rewrite erase_tail by lia. simpl. fold kept1. rewrite H1. simpl.
    rewrite chopLen_nat; [| destruct path1; [simpl in Hl1; lia | congruence]
                          | lia | assumption].
    fold chop2. rewrite erase_front by lia. simpl. fold kept2.
    rewrite H2. reflexivity.
  - intros ->. destruct kept2; [congruence|]. simpl in Hl2. lia.
Qed.

End Finite.

(** C6: on a non-empty path, with sizes in the range of [size_t] and
    [minBranchLen] in that of [unsigned], [extendPath] removes exactly
    [min (len - 1) minBranchLen] vertices from the end and extends forward,
    then removes exactly [min (len - 1) minBranchLen] vertices, computed on
    the extended path, from the start and extends in reverse with the
    visited set of the forward phase. *)
Theorem extendPath_refines fuel (path : Path V) :
  path <> [] ->
  Z.of_nat (length path) + Z.of_nat fuel <= UInt.SIZE_MAX ->
  0 <= minBranchLen <= UInt.UINT_MAX ->
  extendPath fuel path graph minBranchLen
  = extendPath_spec fuel path graph minBranchLen.
Proof.
  intros Hne Hlen Hm.
  assert (Hlen1 : (1 <= length path)%nat)
    by (destruct path; [congruence|simpl; lia]).
  unfold extendPath, extendPath_spec.
  rewrite chopLen_nat by (try assumption; lia).
  rewrite erase_tail by lia. simpl.
  destruct (extendPathDir fuel _ FORWARD graph ∅ minBranchLen)
    as [[path1 visited1]|] eqn:H1; simpl; [|reflexivity].
  destruct (extendPathDir_adds _ _ _ _ _ _ H1) as (Hk1 & Hl1 & _ & _).
  rewrite length_take in Hl1.
  assert (path1 <> []).
  { intros ->. simpl in Hl1.
    destruct (take _ path) eqn:E; [congruence|].
    apply (f_equal length) in E. rewrite length_take in E. simpl in E. lia. }
  rewrite chopLen_nat by (try assumption; lia).
  rewrite erase_front by lia. reflexivity.
Qed.

End ExtendPath.

Example extendPath_toy : extendPath 20 [3; 4]%nat tt 1 = Some (seq 0 8).
Proof. vm_compute. reflexivity. Qed.

Example extendPath_empty : extendPath 20 ([] : Path nat) tt 5 = None.
Proof. vm_compute. reflexivity. Qed.

Lemma Toy_trueBranches_closed (v : nat) (dir : Direction) (w : nat) :
  w ∈ trueBranches v dir tt 5 -> w ∈ Toy.vertices.
Proof.
  unfold Toy.vertices. rewrite elem_of_list_to_set, elem_of_seq.
  destruct dir; simpl; unfold Toy.trueBranches.
  - destruct (v =? 2)%nat eqn:E2.
    + rewrite !elem_of_cons, elem_of_nil. lia.
    + destruct (v <? 7)%nat eqn:E7.
      * apply Nat.ltb_lt in E7. rewrite elem_of_cons, elem_of_nil. lia.
      * rewrite elem_of_nil. tauto.
  - destruct (v =? 5)%nat eqn:E5.
    + rewrite !elem_of_cons, elem_of_nil. lia.
    + destruct v as [|u]; [rewrite elem_of_nil; tauto|].
      destruct (S u <? 10)%nat eqn:E10.
      * apply Nat.ltb_lt in E10. rewrite elem_of_cons, elem_of_nil. lia.
      * rewrite elem_of_nil. tauto.
Qed.

Lemma Toy_vertices_size : size Toy.vertices = 10%nat.
Proof. vm_compute. reflexivity. Qed.

Lemma extendPath_nonempty_witness :
  exists path2, extendPath 20 [0; 1]%nat tt 5 = Some path2 /\ path2 <> [].
Proof.
  destruct (extendPath_nonempty tt 5 Toy.vertices Toy_trueBranches_closed
              20 [0; 1]%nat)
    as (c1 & k1 & p1 & v1 & c2 & k2 & path2 & v2 & Hall).
  - discriminate.
  - vm_compute. discriminate.
  - vm_compute. split; discriminate.
  - rewrite Toy_vertices_size. lia.
  - destruct Hall as (_ & _ & _ & _ & _ & _ & _ & _ & _ & _ & Hext & Hne).
    exists path2. split; assumption.
Defined.

Lemma extendPath_refines_witness :
  extendPath 20 [0; 1]%nat tt 5 = extendPath_spec 20 [0; 1]%nat tt 5.
Proof.
  apply extendPath_refines.
  - discriminate.
  - vm_compute. discriminate.
  - vm_compute. split; discriminate.
Defined.

(** ** [trimSeq] *)

Lemma UNSET_eq : UNSET = 4294967295.
Proof. reflexivity. Qed.

Section TrimScan.

Variables valid good : Z -> bool.

Hypothesis good_valid : forall i, good i = true -> valid i = true.
Hypothesis valid_nonneg : forall i, valid i = true -> 0 <= i.

Lemma trimInv_init : TrimInv valid good 0 trimInit.
Proof.
  constructor; unfold trimInit; simpl; try lia.
  - intros _. split; [intros; lia | lia].
  - intros s L HL Hrun Hend. exfalso.
    pose proof (valid_nonneg s (good_valid s (Hrun s ltac:(lia)))). lia.
Qed.

(** A run of good positions that ends at or before [c + 1] ends at or
    before [c] when [c] is not good. *)
Lemma run_stops s L c :
  1 <= L -> (forall i, s <= i < s + L -> good i = true) ->
  s + L <= c + 1 -> good c = false -> s <= c -> s + L <= c.
Proof.
  intros HL Hrun Hend Hc Hs.
  destruct (Z_le_gt_dec (s + L) c) as [|Hgt]; [assumption|].
  rewrite (Hrun c) in Hc by lia. discriminate.
Qed.

Lemma run_nonneg s L :
  1 <= L -> (forall i, s <= i < s + L -> good i = true) -> 0 <= s.
Proof.
  intros HL Hrun. apply valid_nonneg, good_valid, Hrun. lia.
Qed.

Lemma not_valid_not_good i : valid i = false -> good i = false.
Proof.
  intros Hv. destruct (good i) eqn:E; [|reflexivity].
  apply good_valid in E. congruence.
Qed.

(** Moving past a position that the iterator does not visit. *)
Lemma trimInv_skip c st :
  TrimInv valid good c st -> valid c = false ->
  TrimInv valid good (c + 1) st.
Proof.
  intros [Hlen Hmax Hunset Hprev Hidle Hrun Hbest Hlong] Hc.
  constructor; try assumption.
  - intros Hp. destruct (Hunset Hp) as (Hall & ? & ?).
    split; [|split; assumption].
    intros i Hi. destruct (Z.eq_dec i c) as [->|]; [assumption|].
    apply Hall. lia.
  - intros Hp. destruct (Hprev Hp) as (Hrange & Hv & Hgap).
    split; [lia|]. split; [assumption|].
    intros i Hi. destruct (Z.eq_dec i c) as [->|]; [assumption|].
    apply Hgap. lia.
  - intros Hb. destruct (Hbest Hb) as (? & ? & Hbound).
    split; [assumption|]. split; [assumption|].
    destruct (0 <? matchLen st); lia.
  - intros s L HL Hgood Hend.
    apply Hlong; [assumption..|].
    destruct (Z_le_gt_dec s c).
    + apply run_stops; try assumption. now apply not_valid_not_good.
    + lia.
Qed.

Lemma trimInv_matchLen_le c st :
  TrimInv valid good c st -> 0 <= c -> matchLen st <= c.
Proof.
  intros [Hlen _ _ Hprev _ Hrun _ _] Hc.
  destruct (Z.eq_dec (matchLen st) 0) as [->|Hn]; [assumption|].
  destruct (Hrun ltac:(lia)) as (Hp & ? & ? & _).
  destruct (Hprev Hp) as (? & _). lia.
Qed.

(** A good run that ends at or before [c] ends at or before the last
    visited position. *)
Lemma run_before_prev c st s L :
  TrimInv valid good c st -> prevPos st <> UNSET ->
  1 <= L -> (forall i, s <= i < s + L -> good i = true) -> s + L <= c ->
  s + L <= prevPos st + 1.
Proof.
  intros [_ _ _ Hprev _ _ _ _] Hp HL Hgood Hend.
  destruct (Hprev Hp) as (Hrange & _ & Hgap).
  destruct (Z_le_gt_dec (s + L) (prevPos st + 1)) as [|Hgt]; [assumption|].
  exfalso.
  assert (Hi : good (s + L - 1) = true) by (apply Hgood; lia).
  apply good_valid in Hi. rewrite Hgap in Hi by lia. discriminate.
Qed.

(** What [recordMatch] leaves as best match: the first longest run among
    those that end at or before [c]. *)
Lemma recordMatch_best c st :
  TrimInv valid good c st -> 0 <= c <= UNSET ->
  let st' := recordMatch st in
  prevPos st' = prevPos st /\ matchStart st' = matchStart st /\
  matchLen st' = matchLen st /\
  0 <= maxMatchLen st' /\
  (prevPos st = UNSET -> maxMatchLen st' = 0) /\
  (0 < maxMatchLen st' ->
   0 <= maxMatchStart st' /\
   (forall i, maxMatchStart st' <= i < maxMatchStart st' + maxMatchLen st' ->
              good i = true) /\
   maxMatchStart st' + maxMatchLen st' <= c) /\
  (forall s L, 1 <= L -> (forall i, s <= i < s + L -> good i = true) ->
     s + L <= c ->
     L <= maxMatchLen st' /\ (L = maxMatchLen st' -> maxMatchStart st' <= s)).
Proof.
  intros Hinv Hc.
  pose proof Hinv as [Hlen Hmax Hunset Hprev Hidle Hrun Hbest Hlong].
  unfold recordMatch.
  destruct (Z.eq_dec (matchLen st) 0) as [Hz|Hnz].
  - (* no current match *)
    replace (maxMatchLen st <? matchLen st) with false
      by (symmetry; apply Z.ltb_ge; lia).
    rewrite andb_false_r. cbv zeta.
    split; [reflexivity|]. split; [reflexivity|]. split; [reflexivity|].
    split; [assumption|]. split; [intros Hp; apply Hunset, Hp|]. split.
    + intros Hb. destruct (Hbest Hb) as (? & ? & Hbound).
      rewrite Hz in Hbound. simpl in Hbound. auto.
    + intros s L HL Hgood Hend.
      destruct (Hlong s L HL Hgood Hend) as [[? _]|?]; [lia | assumption].
  - destruct (Hrun ltac:(lia)) as (Hp & Hms & Hsum & Hcur & Hleft).
    destruct (Hprev Hp) as (Hrange & _ & _).
    replace (matchStart st =? UNSET) with false
      by (symmetry; apply Z.eqb_neq; lia).
    simpl negb. rewrite andb_true_l.
    destruct (maxMatchLen st <? matchLen st) eqn:Elt.
    + (* the current match becomes the best *)
      apply Z.ltb_lt in Elt. cbv zeta. simpl.
      split; [reflexivity|]. split; [reflexivity|]. split; [reflexivity|].
      split; [assumption|]. split; [intros; congruence|]. split.
      * intros _. split; [assumption|]. split; [|lia].
        intros i Hi. apply Hcur. lia.
      * intros s L HL Hgood Hend.
        pose proof (run_before_prev c st s L Hinv Hp HL Hgood Hend).
        destruct (Hlong s L HL Hgood Hend) as [[_ ?]|[? _]]; lia.
    + (* the best match stays *)
      apply Z.ltb_ge in Elt. cbv zeta.
      split; [reflexivity|]. split; [reflexivity|]. split; [reflexivity|].
      split; [assumption|]. split; [intros; congruence|].
      destruct (Hbest ltac:(lia)) as (Hbs & Hbgood & Hbound).
      replace (0 <? matchLen st) with true in Hbound
        by (symmetry; apply Z.ltb_lt; lia).
      split.
      * intros _. split; [assumption|]. split; [assumption|]. lia.
      * intros s L HL Hgood Hend.
        pose proof (run_before_prev c st s L Hinv Hp HL Hgood Hend).
        destruct (Hlong s L HL Hgood Hend) as [[_ ?]|?]; [lia | assumption].
Qed.

(** The loop body at a visited position where the filter misses. *)
Lemma trimInv_miss c st :
  TrimInv valid good c st -> valid c = true -> c < UNSET ->
  good c = false ->
  TrimInv valid good (c + 1) (trimBody false c st).
Proof.
  intros Hinv Hv Hc Hg.
  pose proof (valid_nonneg c Hv) as Hc0. pose proof UNSET_eq as HU.
  destruct (recordMatch_best c st Hinv ltac:(lia))
    as (Ep & Es & El & Hmax' & Hunset' & Hbest' & Hlong').
  unfold trimBody. simpl negb. rewrite orb_true_l.
  unfold setPrevPos, resetMatch. simpl.
  rewrite u32_small by (unfold UInt.UINT_MAX; lia).
  constructor; simpl.
  - lia.
  - assumption.
  - intros E. lia.
  - intros _. split; [lia|]. split; [assumption|intros; lia].
  - intros _. split; [reflexivity|]. intros _. assumption.
  - intros E. lia.
  - intros Hb. destruct (Hbest' Hb) as (? & ? & ?).
    split; [assumption|]. split; [assumption|]. lia.
  - intros s L HL Hgood Hend. right. apply Hlong'; [assumption..|].
    apply run_stops; try assumption. lia.
Qed.

(** The first visited position, when the filter contains its k-mer. *)
Lemma trimInv_hit_first c st :
  TrimInv valid good c st -> valid c = true -> c < UNSET ->
  good c = true -> prevPos st = UNSET ->
  TrimInv valid good (c + 1) (trimBody true c st).
Proof.
  intros Hinv Hv Hc Hg Ep.
  pose proof (valid_nonneg c Hv) as Hc0. pose proof UNSET_eq as HU.
  pose proof Hinv as [Hlen Hmax Hunset Hprev Hidle Hrun Hbest Hlong].
  destruct (Hunset Ep) as (Hnone & Hl0 & Hb0).
  destruct (Hidle Hl0) as (Hs & _).
  unfold trimBody. simpl negb. rewrite orb_false_l.
  rewrite Ep, Z.eqb_refl. simpl.
  unfold setPrevPos, growMatch. simpl.
  rewrite Hs, Hl0, Hb0, Z.eqb_refl. simpl.
  rewrite !u32_small by (unfold UInt.UINT_MAX; lia).
  constructor; simpl.
  - lia.
  - lia.
  - intros E. lia.
  - intros _. split; [lia|]. split; [assumption|intros; lia].
  - intros E. lia.
  - intros _. split; [lia|]. split; [lia|]. split; [lia|].
    split; [intros i Hi; replace i with c by lia; assumption|].
    destruct (Z.eq_dec c 0); [now left|right].
    apply not_valid_not_good, Hnone. lia.
  - intros E. lia.
  - intros s L HL Hgood Hend.
    destruct (Z_le_gt_dec c s); [left; lia|]. exfalso.
    pose proof (run_nonneg s L HL Hgood).
    pose proof (good_valid s (Hgood s ltac:(lia))) as Hvs.
    rewrite Hnone in Hvs by lia. discriminate.
Qed.

(** A visited position after skipped ones, when the filter contains its
    k-mer: the match is closed and a new one starts. *)
Lemma trimInv_hit_gap c st :
  TrimInv valid good c st -> valid c = true -> c < UNSET ->
  good c = true -> prevPos st <> UNSET -> 1 < c - prevPos st ->
  TrimInv valid good (c + 1) (trimBody true c st).
Proof.
  intros Hinv Hv Hc Hg Ep Egap.
  pose proof (valid_nonneg c Hv) as Hc0. pose proof UNSET_eq as HU.
  pose proof Hinv as [Hlen Hmax Hunset Hprev Hidle Hrun Hbest Hlong].
  destruct (Hprev Ep) as (Hrange & Hvp & Hgap).
  destruct (recordMatch_best c st Hinv ltac:(lia))
    as (Ep' & Es' & El' & Hmax' & Hunset' & Hbest' & Hlong').
  assert (Hprevgood : good (c - 1) = false)
    by (apply not_valid_not_good, Hgap; lia).
  unfold trimBody. simpl negb. rewrite orb_false_l.
  replace (prevPos st =? UNSET) with false
    by (symmetry; now apply Z.eqb_neq).
  simpl negb. rewrite andb_true_l.
  rewrite u64_small by (unfold UInt.SIZE_MAX; lia).
  replace (1 <? c - prevPos st) with true by (symmetry; now apply Z.ltb_lt).
  unfold setPrevPos, growMatch, resetMatch. simpl.
  rewrite !u32_small by (unfold UInt.UINT_MAX; lia).
  constructor; simpl.
  - lia.
  - assumption.
  - intros E. lia.
  - intros _. split; [lia|]. split; [assumption|intros; lia].
  - intros E. lia.
  - intros _. split; [lia|]. split; [lia|]. split; [lia|].
    split; [intros i Hi; replace i with c by lia; assumption|].
    right. assumption.
  - intros Hb. destruct (Hbest' Hb) as (? & ? & ?). auto.
  - intros s L HL Hgood Hend.
    destruct (Z_le_gt_dec c s); [left; lia|]. right.
    apply Hlong'; [assumption..|].
    destruct (Z_le_gt_dec (s + L) c) as [|Hgt]; [assumption|].
    rewrite (Hgood (c - 1)) in Hprevgood by lia. discriminate.
Qed.

(** A visited position right after the previous one, when the filter
    contains its k-mer: a match starts or grows. *)
Lemma trimInv_hit_next c st :
  TrimInv valid good c st -> valid c = true -> c < UNSET ->
  good c = true -> prevPos st + 1 = c ->
  TrimInv valid good (c + 1) (trimBody true c st).
Proof.
  intros Hinv Hv Hc Hg Hadj.
  pose proof (valid_nonneg c Hv) as Hc0. pose proof UNSET_eq as HU.
  pose proof Hinv as [Hlen Hmax Hunset Hprev Hidle Hrun Hbest Hlong].
  assert (Ep : prevPos st <> UNSET) by lia.
  destruct (Hprev Ep) as (Hrange & Hvp & Hgap).
  unfold trimBody. simpl negb. rewrite orb_false_l.
  replace (prevPos st =? UNSET) with false
    by (symmetry; now apply Z.eqb_neq).
  simpl negb. rewrite andb_true_l.
  rewrite u64_small by (unfold UInt.SIZE_MAX; lia).
  replace (1 <? c - prevPos st) with false by (symmetry; apply Z.ltb_ge; lia).
  unfold setPrevPos, growMatch. simpl.
  destruct (Z.eq_dec (matchLen st) 0) as [Hl0|Hlpos].
  - (* a new match starts *)
    destruct (Hidle Hl0) as (Hs & Hpg). specialize (Hpg Ep).
    replace (prevPos st) with (c - 1) in Hpg by lia.
    rewrite Hs, Hl0, Z.eqb_refl. simpl.
    rewrite !u32_small by (unfold UInt.UINT_MAX; lia).
    constructor; simpl.
    + lia.
    + assumption.
    + intros E. lia.
    + intros _. split; [lia|]. split; [assumption|intros; lia].
    + intros E. lia.
    + intros _. split; [lia|]. split; [lia|]. split; [lia|].
      split; [intros i Hi; replace i with c by lia; assumption|].
      right. assumption.
    + intros Hb. destruct (Hbest Hb) as (? & ? & Hbound).
      rewrite Hl0 in Hbound. simpl in Hbound. auto.
    + intros s L HL Hgood Hend.
      destruct (Z_le_gt_dec c s); [left; lia|]. right.
      assert (s + L <= c).
      { destruct (Z_le_gt_dec (s + L) c) as [|Hgt]; [assumption|].
        rewrite (Hgood (c - 1)) in Hpg by lia. discriminate. }
      destruct (Hlong s L HL Hgood ltac:(assumption)) as [[? _]|?];
        [lia | assumption].
  - (* the current match grows *)
    destruct (Hrun ltac:(lia)) as (_ & Hms & Hsum & Hcur & Hleft).
    replace (matchStart st =? UNSET) with false
      by (symmetry; apply Z.eqb_neq; lia).
    rewrite !u32_small by (unfold UInt.UINT_MAX; lia).
    constructor; simpl.
    + lia.
    + assumption.
    + intros E. lia.
    + intros _. split; [lia|]. split; [assumption|intros; lia].
    + intros E. lia.
    + intros _. split; [lia|]. split; [lia|]. split; [lia|].
      split; [|assumption].
      intros i Hi. destruct (Z.eq_dec i c) as [->|]; [assumption|].
      apply Hcur. lia.
    + intros Hb. destruct (Hbest Hb) as (? & ? & Hbound).
      replace (0 <? matchLen st) with true in Hbound
        by (symmetry; apply Z.ltb_lt; lia).
      replace (0 <? matchLen st + 1) with true
        by (symmetry; apply Z.ltb_lt; lia).
      auto.
    + intros s L HL Hgood Hend.
      destruct (Z_le_gt_dec (s + L) c) as [Hle|Hgt].
      * destruct (Hlong s L HL Hgood Hle) as [[_ ?]|?];
          [left; lia | right; assumption].
      * left. split; [lia|].
        destruct (Z_le_gt_dec (matchStart st) s) as [|Hlt];
          [assumption|]. exfalso.
        pose proof (run_nonneg s L HL Hgood).
        destruct Hleft as [Hz|Hng]; [lia|].
        rewrite (Hgood (matchStart st - 1)) in Hng by lia.
        discriminate.
Qed.

Lemma trimInv_step c st :
  TrimInv valid good c st -> valid c = true -> c < UNSET ->
  TrimInv valid good (c + 1) (trimBody (good c) c st).
Proof.
  intros Hinv Hv Hc. destruct (good c) eqn:Hg.
  - destruct (Z.eq_dec (prevPos st) UNSET) as [Ep|Ep].
    + now apply trimInv_hit_first.
    + destruct (inv_prev _ _ _ _ Hinv Ep) as (Hrange & _).
      destruct (Z_le_gt_dec (c - prevPos st) 1).
      * apply trimInv_hit_next; try assumption. lia.
      * apply trimInv_hit_gap; try assumption. lia.
  - now apply trimInv_miss.
Qed.

End TrimScan.

Section TrimFacts.

Context {RollingHash : Type} `{!RollingHashT RollingHash}.
Context {B : Type} `{!BloomT B}.

Variable seq : Sequence.
Variable goodKmerSet : B.

Lemma goodZ_validZ i :
  goodZ seq goodKmerSet i = true ->
  validZ seq (getKmerSize goodKmerSet) i = true.
Proof.
  unfold goodZ, validZ, goodAt. rewrite !andb_true_iff. tauto.
Qed.

Lemma validZ_nonneg i :
  validZ seq (getKmerSize goodKmerSet) i = true -> 0 <= i.
Proof.
  unfold validZ. rewrite andb_true_iff, Z.leb_le. tauto.
Qed.

Lemma validZ_of_nat i :
  validZ seq (getKmerSize goodKmerSet) (Z.of_nat i)
  = validKmerAt seq (getKmerSize goodKmerSet) i.
Proof.
  unfold validZ. rewrite Nat2Z.id.
  replace (0 <=? Z.of_nat i) with true by (symmetry; apply Z.leb_le; lia).
  reflexivity.
Qed.

Lemma goodZ_of_nat i :
  goodZ seq goodKmerSet (Z.of_nat i) = goodAt seq goodKmerSet i.
Proof.
  unfold goodZ. rewrite Nat2Z.id.
  replace (0 <=? Z.of_nat i) with true by (symmetry; apply Z.leb_le; lia).
  reflexivity.
Qed.

(** At a visited position the loop body is [trimBody] on the goodness of
    that position. *)
Lemma trimStep_itemAt st i :
  validKmerAt seq (getKmerSize goodKmerSet) i = true ->
  trimStep goodKmerSet st
    (itemAt seq (getKmerSize goodKmerSet) (getHashNum goodKmerSet) i)
  = trimBody (goodZ seq goodKmerSet (Z.of_nat i)) (Z.of_nat i) st.
Proof.
  intros Hv. rewrite goodZ_of_nat. unfold trimStep, goodAt, it_hashes.
  simpl. rewrite Hv. reflexivity.
Qed.

(** The invariant along the positions [c], ..., [c + m - 1]. *)
Lemma trimInv_fold m : forall c st,
  TrimInv (validZ seq (getKmerSize goodKmerSet)) (goodZ seq goodKmerSet)
          (Z.of_nat c) st ->
  Z.of_nat (c + m) <= UNSET ->
  TrimInv (validZ seq (getKmerSize goodKmerSet)) (goodZ seq goodKmerSet)
          (Z.of_nat (c + m))
          (fold_left (trimStep goodKmerSet)
             (itemAt seq (getKmerSize goodKmerSet) (getHashNum goodKmerSet)
              <$> List.filter (validKmerAt seq (getKmerSize goodKmerSet))
                              (List.seq c m))
             st).
Proof.
  induction m as [|m IH]; intros c st Hinv Hbound.
  - simpl. now rewrite Nat.add_0_r.
  - simpl List.seq. simpl List.filter.
    replace (c + S m)%nat with (S c + m)%nat in * by lia.
    destruct (validKmerAt seq (getKmerSize goodKmerSet) c) eqn:Hv.
    + simpl. rewrite trimStep_itemAt by assumption.
      apply (IH (S c)); [|assumption].
      replace (Z.of_nat (S c)) with (Z.of_nat c + 1) by lia.
      apply trimInv_step; try assumption.
      * apply goodZ_validZ.
      * apply validZ_nonneg.
      * now rewrite validZ_of_nat.
      * lia.
    + apply (IH (S c)); [|assumption].
      replace (Z.of_nat (S c)) with (Z.of_nat c + 1) by lia.
      apply trimInv_skip; try assumption.
      * apply goodZ_validZ.
      * now rewrite validZ_of_nat.
Qed.

Lemma goodAt_fits i :
  goodAt seq goodKmerSet i = true ->
  (i + getKmerSize goodKmerSet <= length seq)%nat.
Proof.
  unfold goodAt. rewrite andb_true_iff. intros [Hv _].
  now apply validKmerAt_fits.
Qed.

Lemma goodRun_Z start len :
  goodRun seq goodKmerSet start len ->
  1 <= Z.of_nat len /\
  (forall i, Z.of_nat start <= i < Z.of_nat start + Z.of_nat len ->
             goodZ seq goodKmerSet i = true) /\
  Z.of_nat start + Z.of_nat len
  <= Z.of_nat (length seq + 1 - getKmerSize goodKmerSet).
Proof.
  intros [Hlen Hgood]. split; [lia|]. split.
  - intros i Hi. rewrite <- (Z2Nat.id i) by lia. rewrite goodZ_of_nat.
    apply Hgood. lia.
  - pose proof (goodAt_fits _ (Hgood (start + len - 1)%nat ltac:(lia))). lia.
Qed.

(** The two outcomes of [trimSeq]: nothing is good and the result is
    empty, or the result is the first longest run of good positions. *)
Lemma trimSeq_cases :
  Z.of_nat (length seq) < UNSET ->
  (trimSeq seq goodKmerSet = Some [] /\
   forall i, goodAt seq goodKmerSet i = false) \/
  (exists start len,
     goodRun seq goodKmerSet start len /\
     (start + (len + getKmerSize goodKmerSet - 1) <= length seq)%nat /\
     trimSeq seq goodKmerSet
     = Some (take (len + getKmerSize goodKmerSet - 1) (drop start seq)) /\
     (forall start' len', goodRun seq goodKmerSet start' len' ->
        (len' <= len)%nat) /\
     (forall start', goodRun seq goodKmerSet start' len ->
        (start <= start')%nat)).
Proof.
  intros Hbound. pose proof UNSET_eq as HU. unfold trimSeq.
  destruct (length seq <? getKmerSize goodKmerSet)%nat eqn:Ek.
  - left. split; [reflexivity|]. intros i.
    destruct (goodAt seq goodKmerSet i) eqn:E; [|reflexivity].
    apply goodAt_fits in E. apply Nat.ltb_lt in Ek. lia.
  - apply Nat.ltb_ge in Ek.
    set (k := getKmerSize goodKmerSet) in *.
    set (N := (length seq + 1 - k)%nat).
    pose proof (trimInv_fold N 0 trimInit) as Hinv. simpl in Hinv.
    specialize (Hinv (trimInv_init _ _ goodZ_validZ validZ_nonneg)
                     ltac:(lia)).
    unfold RollingHashIterator, kmerPositions. fold k N.
    set (st := fold_left _ _ trimInit) in *.
    destruct (recordMatch_best _ _ goodZ_validZ _ st Hinv ltac:(lia))
      as (_ & _ & _ & Hmax & _ & Hbest & Hlong).
    destruct (maxMatchLen (recordMatch st) =? 0) eqn:E0.
    + left. split; [reflexivity|]. apply Z.eqb_eq in E0. intros i.
      destruct (goodAt seq goodKmerSet i) eqn:E; [|reflexivity]. exfalso.
      assert (Hrun : goodRun seq goodKmerSet i 1).
      { split; [lia|]. intros j Hj. replace j with i by lia. assumption. }
      destruct (goodRun_Z i 1 Hrun) as (HL & Hg & Hend).
      destruct (Hlong _ _ HL Hg Hend) as [? _]. lia.
    + right. apply Z.eqb_neq in E0.
      destruct (Hbest ltac:(lia)) as (Hbs & Hbgood & Hbend).
      set (bs := maxMatchStart (recordMatch st)) in *.
      set (bl := maxMatchLen (recordMatch st)) in *.
      assert (Hrun : goodRun seq goodKmerSet (Z.to_nat bs) (Z.to_nat bl)).
      { split; [lia|]. intros i Hi. rewrite <- goodZ_of_nat.
        apply Hbgood. lia. }
      exists (Z.to_nat bs), (Z.to_nat bl).
      split; [assumption|]. split; [lia|]. split; [|split].
      * unfold substr.
        replace (Z.of_nat (length seq) <? bs) with false
          by (symmetry; apply Z.ltb_ge; lia).
        rewrite u32_small by (unfold UInt.UINT_MAX; lia).
        do 2 f_equal. lia.
      * intros start' len' Hrun'.
        destruct (goodRun_Z _ _ Hrun') as (HL & Hg & Hend).
        destruct (Hlong _ _ HL Hg Hend) as [? _]. lia.
      * intros start' Hrun'.
        destruct (goodRun_Z _ _ Hrun') as (HL & Hg & Hend).
        destruct (Hlong _ _ HL Hg Hend) as [_ Hfirst]. lia.
Qed.

(** The k-mers of a substring are those of the sequence at the shifted
    positions. *)
Lemma kmerAt_substring (s : Sequence) (k start m j : nat) :
  (j + k <= m)%nat ->
  kmerAt (take m (drop start s)) k j = kmerAt s k (start + j).
Proof.
  intros Hj. unfold kmerAt. apply list_eq. intros i.
  destruct (decide (i < k)%nat) as [Hi|Hi].
  - rewrite !lookup_take_lt by assumption.
    rewrite !lookup_drop. rewrite lookup_take_lt by lia.
    rewrite lookup_drop. f_equal. lia.
  - rewrite !lookup_take_ge by lia. reflexivity.
Qed.

Lemma goodAt_substring (start m j : nat) :
  (start + m <= length seq)%nat ->
  (j + getKmerSize goodKmerSet <= m)%nat ->
  goodAt (take m (drop start seq)) goodKmerSet j
  = goodAt seq goodKmerSet (start + j).
Proof.
  intros Hm Hj. unfold goodAt, validKmerAt.
  rewrite !kmerAt_substring by assumption.
  rewrite length_take, length_drop.
  replace (j + getKmerSize goodKmerSet
           <=? Nat.min m (length seq - start))%nat with true
    by (symmetry; apply Nat.leb_le; lia).
  replace (start + j + getKmerSize goodKmerSet <=? length seq)%nat with true
    by (symmetry; apply Nat.leb_le; lia).
  reflexivity.
Qed.



End TrimFacts.

Example trimSeq_second_run :
  trimSeq (RollingHash := Toy.RollingHash)
    (Toy.seqOf "TTACGTACNACGTACGT") ToyRun.good
  = Some (Toy.seqOf "ACGTACGT").
Proof. vm_compute. reflexivity. Qed.

Example trimSeq_tie_first :
  trimSeq (RollingHash := Toy.RollingHash)
    (Toy.seqOf "ACGTATTCGTAC") ToyRun.good
  = Some (Toy.seqOf "ACGTA").
Proof. vm_compute. reflexivity. Qed.

Example trimSeq_none :
  trimSeq (RollingHash := Toy.RollingHash) (Toy.seqOf "TTTTTTT") ToyRun.good
  = Some [].
Proof. vm_compute. reflexivity. Qed.



(** ** [trimSeq] on a sequence of more than [UINT_MAX] characters *)











(** ** The Bloom filter *)

Lemma bloom_le_refl F : bloom_le F F.
Proof. unfold bloom_le. auto. Qed.

Lemma bloom_le_trans F1 F2 F3 :
  bloom_le F1 F2 -> bloom_le F2 F3 -> bloom_le F1 F3.
Proof.
  unfold bloom_le. intros (Hb & Hs & Hh & Hk) (Hb' & Hs' & Hh' & Hk').
  split; [etransitivity; eassumption|]. repeat split; congruence.
Qed.

Lemma bf_insert_le F hashes : bloom_le F (bf_insert F hashes).
Proof.
  unfold bloom_le, bf_insert. simpl. split; [|auto].
  apply union_subseteq_l.
Qed.

(** No false negatives: what was inserted is contained. *)
Lemma bf_contains_insert F hashes :
  bf_contains (bf_insert F hashes) hashes = true.
Proof.
  unfold bf_contains. apply forallb_forall. intros h Hh.
  apply bool_decide_eq_true. unfold bf_insert, bf_index. simpl.
  apply elem_of_union_r, elem_of_list_to_set, list_elem_of_fmap.
  exists h. split; [reflexivity|]. now apply list_elem_of_In.
Qed.

(** Monotonicity: a set bit stays set. *)
Lemma bf_contains_mono F F' hashes :
  bloom_le F F' -> bf_contains F hashes = true ->
  bf_contains F' hashes = true.
Proof.
  intros (Hb & Hs & _ & _). unfold bf_contains.
  rewrite !forallb_forall. intros Hall h Hh.
  specialize (Hall h Hh). apply bool_decide_eq_true in Hall.
  apply bool_decide_eq_true. unfold bf_index in *. rewrite Hs.
  now apply Hb.
Qed.

Section BloomFacts.

Context {RollingHash : Type} `{!RollingHashT RollingHash}.

Lemma allContained_true {B : Type} `{!BloomT B} (bloom : B)
    (its : list (RHItem RollingHash)) :
  allContained bloom its = true <->
  forall it, it ∈ its -> contains bloom (it_hashes it) = true.
Proof.
  induction its as [|a its IH]; simpl.
  - split; [|reflexivity]. intros _ it Hit. inversion Hit.
  - destruct (contains bloom (it_hashes a)) eqn:Ea; simpl.
    + rewrite IH. split.
      * intros Hall it Hit. apply elem_of_cons in Hit as [->|Hit]; auto.
      * intros Hall it Hit. apply Hall. now right.
    + split; [discriminate|]. intros Hall.
      rewrite <- Ea. apply Hall. now left.
Qed.

Lemma allContained_false {B : Type} `{!BloomT B} (bloom : B)
    (its : list (RHItem RollingHash)) :
  allContained bloom its = false ->
  exists it, it ∈ its /\ contains bloom (it_hashes it) = false.
Proof.
  induction its as [|a its IH]; simpl; [discriminate|].
  destruct (contains bloom (it_hashes a)) eqn:Ea; simpl.
  - intros Hrest. destruct (IH Hrest) as (it & Hit & Hc).
    exists it. split; [now right | assumption].
  - intros _. exists a. split; [now left | assumption].
Qed.

Lemma allKmersInBloom_everyKmerIn {B : Type} `{!BloomT B} (seq : Sequence)
    (bloom : B) (b : bool) :
  allKmersInBloom seq bloom = Some b ->
  (b = true <-> everyKmerIn seq bloom).
Proof.
  unfold allKmersInBloom, everyKmerIn.
  destruct (length seq <? getKmerSize bloom)%nat; [discriminate|].
  intros [= <-]. apply allContained_true.
Qed.

Lemma fold_insert_le (its : list (RHItem RollingHash)) F :
  bloom_le F (fold_left (fun bloom it => bf_insert bloom (it_hashes it))
                        its F).
Proof.
  revert F. induction its as [|a its IH]; intros F; simpl.
  - apply bloom_le_refl.
  - eapply bloom_le_trans; [apply bf_insert_le | apply IH].
Qed.

Lemma fold_insert_contains (its : list (RHItem RollingHash)) F it :
  it ∈ its ->
  bf_contains (fold_left (fun bloom it => bf_insert bloom (it_hashes it))
                         its F) (it_hashes it) = true.
Proof.
  revert F. induction its as [|a its IH]; intros F Hit; simpl.
  - inversion Hit.
  - apply elem_of_cons in Hit as [->|Hit].
    + eapply bf_contains_mono; [apply fold_insert_le|].
      apply bf_contains_insert.
    + now apply IH.
Qed.

Lemma addKmersToBloom_le (seq : Sequence) F :
  bloom_le F (addKmersToBloom seq F).
Proof. apply fold_insert_le. Qed.

(** After [addKmersToBloom seq], all k-mers of [seq] are in the filter. *)
Lemma allKmersInBloom_added (seq : Sequence) F :
  (bf_kmerSize F <= length seq)%nat ->
  allKmersInBloom seq (addKmersToBloom seq F) = Some true.
Proof.
  intros Hk.
  destruct (addKmersToBloom_le seq F) as (_ & _ & Hh & Hkk).
  unfold allKmersInBloom. simpl. rewrite Hh, Hkk.
  destruct (length seq <? bf_kmerSize F)%nat eqn:E;
    [apply Nat.ltb_lt in E; lia|].
  f_equal. apply allContained_true. intros it Hit. simpl.
  unfold addKmersToBloom. now apply fold_insert_contains.
Qed.

Lemma allKmersInBloom_mono (seq : Sequence) F F' :
  bloom_le F F' -> allKmersInBloom seq F = Some true ->
  allKmersInBloom seq F' = Some true.
Proof.
  intros Hle. pose proof Hle as (_ & _ & Hh & Hk).
  unfold allKmersInBloom. simpl. rewrite Hh, Hk.
  destruct (length seq <? bf_kmerSize F)%nat; [discriminate|].
  intros [= Hall]. f_equal. apply allContained_true.
  intros it Hit. simpl. eapply bf_contains_mono; [eassumption|].
  apply (proj1 (allContained_true F _) Hall). assumption.
Qed.

(** ** The critical section [out] *)

Lemma emitContig_le readId (seq : Sequence) st st' :
  emitContig readId seq st = Some st' ->
  bloom_le (assembledKmerSet st) (assembledKmerSet st').
Proof.
  unfold emitContig.
  destruct (allKmersInBloom seq (assembledKmerSet st)) as [[|]|]; simpl;
    [| |discriminate]; intros [= <-].
  - apply bloom_le_refl.
  - simpl. apply addKmersToBloom_le.
Qed.

Lemma emitAll_le contigs st st' :
  emitAll contigs st = Some st' ->
  bloom_le (assembledKmerSet st) (assembledKmerSet st').
Proof.
  revert st. induction contigs as [|[readId seq] rest IH]; intros st; simpl.
  - intros [= <-]. apply bloom_le_refl.
  - destruct (emitContig readId seq st) as [st1|] eqn:E1; simpl;
      [|discriminate].
    intros Hrest. eapply bloom_le_trans.
    + eapply emitContig_le. eassumption.
    + now apply IH.
Qed.

(** C1: when the critical section emits a contig, some k-mer of the contig
    was absent from the assembled filter on entry; all its k-mers are in
    the filter before the record is written; and after any further
    critical sections, entering one with the same sequence again emits
    nothing. *)
Theorem emitContig_dedup readId (seq : Sequence) st st' :
  emitContig readId seq st = Some st' ->
  (st' = st /\ allKmersInBloom seq (assembledKmerSet st) = Some true) \/
  ((exists it,
      it ∈ RollingHashIterator seq (bf_kmerSize (assembledKmerSet st))
                               (bf_hashNum (assembledKmerSet st)) /\
      bf_contains (assembledKmerSet st) (it_hashes it) = false) /\
   allKmersInBloom seq (assembledKmerSet (insertContig seq st)) = Some true /\
   out (insertContig seq st) = out st /\
   st' = writeContig readId seq (insertContig seq st) /\
   out st' = out st ++ [mkFastaRecord (contigName (contigID st) readId) seq] /\
   (forall contigs st'' readId',
      emitAll contigs st' = Some st'' ->
      emitContig readId' seq st'' = Some st'')).
Proof.
  unfold emitContig.
  destruct (allKmersInBloom seq (assembledKmerSet st)) as [covered|] eqn:E;
    simpl; [|discriminate].
  destruct covered; simpl; intros [= <-].
  - left. split; reflexivity.
  - right.
    assert (Hk : (bf_kmerSize (assembledKmerSet st) <= length seq)%nat).
    { unfold allKmersInBloom in E. simpl in E.
      destruct (length seq <? bf_kmerSize (assembledKmerSet st))%nat eqn:El;
        [discriminate|]. now apply Nat.ltb_ge in El. }
    split; [|split; [|split; [|split; [|split]]]].
    + unfold allKmersInBloom in E. simpl in E.
      destruct (length seq <? bf_kmerSize (assembledKmerSet st))%nat;
        [discriminate|].
      injection E as E. apply allContained_false in E. exact E.
    + simpl. now apply allKmersInBloom_added.
    + reflexivity.
    + reflexivity.
    + reflexivity.
    + intros contigs st'' readId' Hlater.
      apply emitAll_le in Hlater. simpl in Hlater.
      rewrite (allKmersInBloom_mono seq _ _ Hlater
                 (allKmersInBloom_added seq _ Hk)).
      reflexivity.
Qed.

End BloomFacts.

Lemma emitContig_dedup_witness :
  exists st',
    emitContig (RollingHash := Toy.RollingHash) "r1" ToyRun.linear
      ToyRun.start = Some st' /\
    out st' = [mkFastaRecord "0 read:r1" ToyRun.linear] /\
    emitContig (RollingHash := Toy.RollingHash) "r2" ToyRun.linear st'
    = Some st'.
Proof.
  destruct (emitContig (RollingHash := Toy.RollingHash) "r1" ToyRun.linear
              ToyRun.start) as [st'|] eqn:E; [|vm_compute in E; discriminate].
  exists st'. split; [reflexivity|].
  destruct (emitContig_dedup "r1" ToyRun.linear ToyRun.start st' E)
    as [[Hsame _]|(_ & _ & _ & _ & Hout & Hlater)].
  - rewrite Hsame in E. vm_compute in E. discriminate.
  - split; [exact Hout|]. apply (Hlater []). reflexivity.
Defined.

(** ** The loop over the reads *)

Section AssembleFacts.

Context {Kmer RollingHash : Type} `{!KmerT Kmer, !RollingHashT RollingHash}.
Context `{Countable (Kmer * RollingHash)}.
Context {B : Type} `{!BloomT B}.
Context `{!GraphT (RollingBloomDBG B) (Kmer * RollingHash)}.

Lemma allKmersInBloom_long {B' : Type} `{!BloomT B'} (seq : Sequence)
    (bloom : B') :
  (getKmerSize bloom <= length seq)%nat ->
  allKmersInBloom (RollingHash := RollingHash) seq bloom
  = Some (allContained bloom
            (RollingHashIterator seq (getKmerSize bloom) (getHashNum bloom))).
Proof.
  intros Hk. unfold allKmersInBloom.
  destruct (length seq <? getKmerSize bloom)%nat eqn:E;
    [apply Nat.ltb_lt in E; lia | reflexivity].
Qed.

Lemma emitContig_counters readId (seq : Sequence) st st' :
  emitContig (RollingHash := RollingHash) readId seq st = Some st' ->
  readsExtended (counters st') = readsExtended (counters st) /\
  readsProcessed (counters st') = readsProcessed (counters st).
Proof.
  unfold emitContig.
  destruct (allKmersInBloom seq (assembledKmerSet st)) as [[|]|]; simpl;
    [| |discriminate]; intros [= <-]; split; reflexivity.
Qed.

Lemma processPaths_counters fuel graph minBranchLen readId n paths :
  forall i st st',
    processPaths fuel graph minBranchLen readId n i paths st = Some st' ->
    readsExtended (counters st') = readsExtended (counters st) /\
    readsProcessed (counters st') = readsProcessed (counters st).
Proof.
  induction paths as [|path rest IH]; intros i st st'; simpl.
  - intros [= <-]. split; reflexivity.
  - destruct (if (i =? 0)%nat || (i =? n - 1)%nat
              then extendPath fuel path graph minBranchLen
              else Some path) as [path'|]; simpl; [|discriminate].
    destruct (pathToSeq path') as [seq|]; simpl; [|discriminate].
    destruct (emitContig readId seq st) as [st1|] eqn:E1; simpl;
      [|discriminate].
    intros Hrest. apply IH in Hrest as [He Hp].
    apply emitContig_counters in E1 as [He1 Hp1]. split; congruence.
Qed.

(** The assembled filter only grows along the loop, and keeps its
    parameters. *)
Lemma processPaths_le fuel graph minBranchLen readId n paths :
  forall i st st',
    processPaths fuel graph minBranchLen readId n i paths st = Some st' ->
    bloom_le (assembledKmerSet st) (assembledKmerSet st').
Proof.
  induction paths as [|path rest IH]; intros i st st'; simpl.
  - intros [= <-]. apply bloom_le_refl.
  - destruct (if (i =? 0)%nat || (i =? n - 1)%nat
              then extendPath fuel path graph minBranchLen
              else Some path) as [path'|]; simpl; [|discriminate].
    destruct (pathToSeq path') as [seq|]; simpl; [|discriminate].
    destruct (emitContig readId seq st) as [st1|] eqn:E1; simpl;
      [|discriminate].
    intros Hrest. eapply bloom_le_trans.
    + eapply emitContig_le. eassumption.
    + eapply IH. eassumption.
Qed.

Lemma processRead_le fuel (goodKmerSet : B) graph rec st st' :
  processRead fuel goodKmerSet graph rec st = Some st' ->
  bloom_le (assembledKmerSet st) (assembledKmerSet st').
Proof.
  unfold processRead.
  destruct (skipRead goodKmerSet rec st) as [[|]|]; simpl; [| |discriminate].
  - intros [= <-]. apply bloom_le_refl.
  - destruct (seqToPath _ _ _) as [path|]; simpl; [|discriminate].
    destruct (processPaths _ _ _ _ _ _ _ st) as [st1|] eqn:Ep; simpl;
      [|discriminate].
    intros [= <-]. simpl. eapply processPaths_le. eassumption.
Qed.


End AssembleFacts.


(** One worker on four reads: the first read is assembled into a contig,
    the second lies within it, the third is too short and the fourth has a
    k-mer outside the good filter. *)
Example assemble_toy :
  (fun st => (out st, contigID st, counters st))
  <$> assemble (Kmer := Toy.Kmer) (RollingHash := Toy.RollingHash) 300
        [ToyRun.readLinear; ToyRun.readInner; ToyRun.readShort;
         ToyRun.readError] 200 ToyRun.goodLinear
  = Some ([mkFastaRecord "0 read:r1" ToyRun.linear], 1,
          mkAssemblyCounters 1 4 16).
Proof. vm_compute. reflexivity. Qed.

(** * Further properties *)

(** ** [roundUpToMultiple] *)

(** X1: when the rounded value is representable (or [base] is 0), rounding
    is idempotent: the result is at least [num], less than [num + base]
    when [base > 0], and rounding it again returns it unchanged. *)
Theorem roundUpToMultiple_idempotent (w num base : Z) :
  0 <= num < 2 ^ w -> 0 <= base < 2 ^ w ->
  base = 0 \/ (exists m, (base | m) /\ num <= m < 2 ^ w) ->
  exists r, roundUpToMultiple w num base = Some r /\
            roundUpToMultiple w r base = Some r /\
            num <= r /\ (0 < base -> r < num + base).
Proof.
  intros Hn Hb [->|(m & Hdiv & Hm)].
  - exists num. repeat split; try reflexivity; lia.
  - destruct (Z.eq_dec base 0) as [->|Hnz].
    { exists num. repeat split; try reflexivity; lia. }
    destruct (round_up_least num base ltac:(lia) ltac:(lia))
      as (Hd & Hge & Hlt & Hmin).
    pose proof (Hmin m Hdiv ltac:(lia)) as Hrm.
    set (r := if num mod base =? 0 then num else num + base - num mod base)
      in *.
    assert (Hr : roundUpToMultiple w num base = Some r).
    { unfold roundUpToMultiple, UInt.rem.
      destruct (base =? 0) eqn:E0; [apply Z.eqb_eq in E0; lia|]. simpl.
      subst r. destruct (num mod base =? 0); [reflexivity|].
      rewrite wrap_small by lia. reflexivity. }
    exists r. split; [assumption|]. split; [|split; [lia | intros; lia]].
    unfold roundUpToMultiple, UInt.rem.
    destruct (base =? 0) eqn:E0; [reflexivity|]. simpl.
    apply Z.mod_divide in Hd; [|lia]. rewrite Hd. reflexivity.
Qed.

Lemma roundUpToMultiple_idempotent_witness :
  exists r, roundUpToMultiple 64 100 64 = Some r /\
            roundUpToMultiple 64 r 64 = Some r /\
            100 <= r /\ (0 < 64 -> r < 100 + 64).
Proof.
  apply roundUpToMultiple_idempotent.
  - lia.
  - lia.
  - right. exists 128. split; [exists 2; reflexivity | lia].
Defined.

(** X2: the size that [assemble] gives its filter,
    [roundUpToMultiple(genomeSize, (size_t)64)], is always a multiple of
    64 within [size_t], and it is 0 exactly when [genomeSize] is 0 or
    above [2^64 - 64], where the sum wraps around. *)
Theorem roundUpToMultiple_64 (genomeSize : Z) :
  0 <= genomeSize < 2 ^ 64 ->
  exists size, roundUpToMultiple 64 genomeSize 64 = Some size /\
               0 <= size < 2 ^ 64 /\ (64 | size) /\
               (size = 0 <-> genomeSize = 0 \/ 2 ^ 64 - 64 < genomeSize).
Proof.
  intros Hg. unfold roundUpToMultiple, UInt.rem. simpl.
  pose proof (Z.mod_pos_bound genomeSize 64 ltac:(lia)) as Hm.
  pose proof (Z.div_mod genomeSize 64 ltac:(lia)) as Hd.
  destruct (genomeSize mod 64 =? 0) eqn:E.
  - apply Z.eqb_eq in E. exists genomeSize.
    split; [reflexivity|]. split; [lia|]. split.
    + exists (genomeSize / 64). lia.
    + split; [intros; left; assumption|]. intros [?|Hbig]; [assumption|].
      exfalso. assert (genomeSize / 64 < 2 ^ 58) by lia. lia.
  - apply Z.eqb_neq in E.
    set (m := genomeSize + 64 - genomeSize mod 64).
    assert (Hmq : m = 64 * (genomeSize / 64 + 1)) by (subst m; lia).
    assert (Hq : genomeSize / 64 + 1 <= 2 ^ 58) by lia.
    exists (UInt.wrap 64 m). split; [reflexivity|].
    destruct (Z.eq_dec (genomeSize / 64 + 1) (2 ^ 58)) as [Etop|Elow].
    + assert (Hw : UInt.wrap 64 m = 0).
      { unfold UInt.wrap. rewrite Hmq, Etop. reflexivity. }
      rewrite Hw. split; [lia|]. split; [exists 0; reflexivity|].
      split; [intros _; right; lia | reflexivity].
    + rewrite wrap_small by lia. split; [lia|]. split.
      * exists (genomeSize / 64 + 1). lia.
      * split; [lia|]. intros [?|?]; lia.
Qed.

Lemma roundUpToMultiple_64_witness :
  exists size, roundUpToMultiple 64 200 64 = Some size /\
               0 <= size < 2 ^ 64 /\ (64 | size) /\
               (size = 0 <-> 200 = 0 \/ 2 ^ 64 - 64 < 200).
Proof. apply roundUpToMultiple_64. lia. Defined.

(** ** [allKmersInBloom] and [addKmersToBloom] *)

Section BloomMore.

Context {RollingHash : Type} `{!RollingHashT RollingHash}.

(** The filter after a series of insertions: its bits are those it had
    and the bits of the inserted hash values. *)
Lemma fold_insert_bits (its : list (RHItem RollingHash)) F :
  fold_left (fun bloom it => bf_insert bloom (it_hashes it)) its F
  = mkBloomFilter
      (bf_bits F
       ∪ list_to_set (its ≫= fun it => bf_index F <$> it_hashes it))
      (bf_size F) (bf_hashNum F) (bf_kmerSize F).
Proof.
  revert F. induction its as [|a its IH]; intros F; simpl.
  - destruct F as [bits size h k]. simpl. f_equal.
    symmetry. apply (right_id_L ∅ (∪)).
  - rewrite IH. simpl. f_equal.
    rewrite list_to_set_app_L. symmetry. apply (assoc_L (∪)).
Qed.

Lemma addKmersToBloom_bits (seq : Sequence) F :
  addKmersToBloom seq F
  = mkBloomFilter
      (bf_bits F
       ∪ list_to_set
           (RollingHashIterator seq (bf_kmerSize F) (bf_hashNum F)
            ≫= fun it => bf_index F <$> it_hashes it))
      (bf_size F) (bf_hashNum F) (bf_kmerSize F).
Proof. apply fold_insert_bits. Qed.

(** X3: what [addKmersToBloom] has inserted is found by
    [allKmersInBloom], also after the k-mers of any further sequences
    have been added. *)
Theorem allKmersInBloom_after_add (seq : Sequence)
    (others : list Sequence) F :
  (bf_kmerSize F <= length seq)%nat ->
  allKmersInBloom seq
    (fold_left (fun bloom s => addKmersToBloom s bloom) others
               (addKmersToBloom seq F))
  = Some true.
Proof.
  intros Hk.
  apply allKmersInBloom_mono with (F := addKmersToBloom seq F).
  - generalize (addKmersToBloom seq F). clear.
    induction others as [|s others IH]; intros F0; simpl.
    + apply bloom_le_refl.
    + eapply bloom_le_trans; [apply addKmersToBloom_le | apply IH].
  - now apply allKmersInBloom_added.
Qed.

(** X4: adding the k-mers of two sequences gives the same filter in
    either order, and adding the k-mers of a sequence twice is the same
    as adding them once. *)
Theorem addKmersToBloom_comm_idem (s t : Sequence) F :
  addKmersToBloom s (addKmersToBloom t F)
  = addKmersToBloom t (addKmersToBloom s F) /\
  addKmersToBloom s (addKmersToBloom s F) = addKmersToBloom s F.
Proof.
  split.
  - rewrite !addKmersToBloom_bits. simpl. f_equal.
    unfold bf_index. simpl.
    rewrite <- !(assoc_L (∪)). f_equal. apply (comm_L (∪)).
  - rewrite !addKmersToBloom_bits. simpl. f_equal.
    unfold bf_index. simpl.
    rewrite <- (assoc_L (∪)). f_equal. apply (idemp_L (∪)).
Qed.

Lemma kmerPositions_none (seq : Sequence) (k : nat) :
  (forall pos, validKmerAt seq k pos = false) -> kmerPositions seq k = [].
Proof.
  intros Hnone. unfold kmerPositions.
  induction (List.seq 0 (length seq + 1 - k)) as [|p l IH];
    simpl; [reflexivity|]. now rewrite Hnone.
Qed.

Lemma allKmersInBloom_none (seq : Sequence) F :
  (forall pos, validKmerAt seq (bf_kmerSize F) pos = false) ->
  (bf_kmerSize F <= length seq)%nat -> allKmersInBloom seq F = Some true.
Proof.
  intros Hnone Hk. unfold allKmersInBloom, RollingHashIterator. simpl.
  rewrite (kmerPositions_none _ _ Hnone).
  destruct (length seq <? bf_kmerSize F)%nat eqn:E;
    [apply Nat.ltb_lt in E; lia | reflexivity].
Qed.

(** X5: on a sequence without a k-mer position that the iterator visits
    (too short, or a character other than A, C, G, T in every window)
    [addKmersToBloom] leaves the filter as it is, and [allKmersInBloom]
    holds of every filter once the sequence has [k] characters, while on
    a shorter one its assertion fails. *)
Theorem no_kmer_sequence (seq : Sequence) F :
  (forall pos, validKmerAt seq (bf_kmerSize F) pos = false) ->
  addKmersToBloom seq F = F /\
  ((bf_kmerSize F <= length seq)%nat -> allKmersInBloom seq F = Some true) /\
  ((length seq < bf_kmerSize F)%nat -> allKmersInBloom seq F = None).
Proof.
  intros Hnone. split; [|split].
  - unfold addKmersToBloom, RollingHashIterator.
    rewrite (kmerPositions_none _ _ Hnone). reflexivity.
  - now apply allKmersInBloom_none.
  - intros Hk. unfold allKmersInBloom. simpl.
    apply Nat.ltb_lt in Hk. now rewrite Hk.
Qed.

End BloomMore.

Lemma allKmersInBloom_after_add_witness :
  allKmersInBloom (RollingHash := Toy.RollingHash) ToyRun.linear
    (fold_left (fun bloom s => addKmersToBloom s bloom)
               [Toy.seqOf "ACGTACGTAC"]
               (addKmersToBloom ToyRun.linear Toy.emptyFilter))
  = Some true.
Proof.
  apply (allKmersInBloom_after_add (RollingHash := Toy.RollingHash)).
  vm_compute. lia.
Defined.

Lemma no_kmer_sequence_witness :
  addKmersToBloom (RollingHash := Toy.RollingHash) (Toy.seqOf "NNNNNN")
    ToyRun.goodLinear = ToyRun.goodLinear /\
  allKmersInBloom (RollingHash := Toy.RollingHash) (Toy.seqOf "NNNNNN")
    Toy.emptyFilter = Some true.
Proof.
  split.
  - apply (no_kmer_sequence (RollingHash := Toy.RollingHash)).
    intros pos. unfold validKmerAt.
    destruct (pos + _ <=? _)%nat eqn:E; [|reflexivity].
    apply Nat.leb_le in E. simpl in E.
    do 3 (destruct pos as [|pos]; [reflexivity|]). simpl in E. lia.
  - apply (no_kmer_sequence (RollingHash := Toy.RollingHash)).
    + intros pos. unfold validKmerAt.
      destruct (pos + _ <=? _)%nat eqn:E; [|reflexivity].
      apply Nat.leb_le in E. simpl in E.
      do 3 (destruct pos as [|pos]; [reflexivity|]). simpl in E. lia.
    + simpl. lia.
Defined.

(** ** [seqToPath] and [pathToSeq] *)

Lemma filter_length_lt {A} (f : A -> bool) (l : list A) (x : A) :
  In x l -> f x = false -> (length (List.filter f l) < length l)%nat.
Proof.
  induction l as [|a l IH]; intros Hin Hx; [destruct Hin|].
  simpl. destruct Hin as [->|Hin].
  - rewrite Hx. pose proof (List.filter_length_le f l). lia.
  - specialize (IH Hin Hx). destruct (f a); simpl; lia.
Qed.

(** Successive windows overlap in [k - 1] characters. *)
Lemma kmerAt_overlap (s : Sequence) (k i : nat) :
  drop 1 (kmerAt s k i) = take (k - 1) (kmerAt s k (S i)).
Proof.
  unfold kmerAt. destruct k as [|k]; [now rewrite !take_0|].
  replace (S k - 1)%nat with k by lia.
  rewrite take_take. replace (k `min` S k)%nat with k by lia.
  destruct (drop i s) as [|c l] eqn:E.
  - rewrite (drop_ge s (S i)); [now rewrite !take_nil|].
    apply (f_equal length) in E. rewrite length_drop in E. simpl in E. lia.
  - simpl. rewrite drop_0.
    replace (drop (S i) s) with l; [reflexivity|].
    change (S i) with (1 + i)%nat. rewrite Nat.add_comm, <- drop_drop, E.
    reflexivity.
Qed.

Section PathsOfSequences.

Context {Kmer RollingHash : Type} `{!KmerT Kmer, !RollingHashT RollingHash}.

Variable k : nat.

Hypothesis Kmer_str_of :
  forall s : Sequence, length s = k -> forallb isACGT s = true ->
    Kmer_str (Kmer_of s) = s.

(** X6: on a string of A, C, G, T with [|s| >= k], [seqToPath] returns
    [|s| - k + 1] vertices, the one at index [i] made of the window at
    offset [i], and the path is a walk in the de Bruijn graph: the last
    [k - 1] bases of a vertex are the first [k - 1] bases of the next. *)
Theorem seqToPath_walk (s : Sequence) (numHashes : nat) :
  (k <= length s)%nat -> forallb isACGT s = true ->
  exists path,
    seqToPath (Kmer := Kmer) (RollingHash := RollingHash) s k numHashes
      = Some path /\
    length path = (length s + 1 - k)%nat /\
    (forall i, (i + k <= length s)%nat ->
       path !! i = Some (Kmer_of (kmerAt s k i),
                         rollingHashOf numHashes k (kmerAt s k i))) /\
    (forall i u v, path !! i = Some u -> path !! S i = Some v ->
       drop 1 (Kmer_str (u.1)) = take (k - 1) (Kmer_str (v.1))).
Proof.
  intros Hk Hs. eexists. split; [now apply seqToPath_fmap|].
  rewrite kmerPositions_all by assumption.
  assert (Hlook : forall i, (i + k <= length s)%nat ->
    ((fun pos => (Kmer_of (kmerAt s k pos),
                  rollingHashOf numHashes k (kmerAt s k pos)))
     <$> seq 0 (length s + 1 - k)) !! i
    = Some (Kmer_of (kmerAt s k i),
            rollingHashOf numHashes k (kmerAt s k i))).
  { intros i Hi. rewrite list_lookup_fmap, lookup_seq_lt by lia.
    reflexivity. }
  split; [now rewrite length_fmap, length_seq|]. split; [exact Hlook|].
  intros i u v Hu Hv.
  assert (Hi : (S i < length s + 1 - k)%nat).
  { apply lookup_lt_Some in Hv. now rewrite length_fmap, length_seq in Hv. }
  rewrite Hlook in Hu by lia. rewrite Hlook in Hv by lia.
  injection Hu as <-. injection Hv as <-. simpl.
  rewrite !Kmer_str_of;
    try (apply length_kmerAt; lia); try now apply forallb_isACGT_kmerAt.
  apply kmerAt_overlap.
Qed.

(** X7: on a non-empty path whose vertices are k-mers of [k] bases,
    [pathToSeq] returns a string of [k + |path| - 1] characters that
    starts with the first k-mer; on the empty path its assertion fails. *)
Theorem pathToSeq_length (path : Path (Kmer * RollingHash)) :
  Forall (fun v => length (Kmer_str (v.1)) = k) path ->
  match path with
  | [] => pathToSeq path = None
  | v :: _ =>
      exists s, pathToSeq path = Some s /\
                length s = (k + length path - 1)%nat /\
                Kmer_str (v.1) `prefix_of` s
  end.
Proof.
  intros Hall. destruct path as [|v rest]; [reflexivity|].
  simpl. eexists. split; [reflexivity|].
  rewrite fold_left_snoc. apply Forall_cons in Hall as [Hv _].
  split.
  - rewrite length_app, length_fmap, Hv. lia.
  - now apply prefix_app_r.
Qed.

(** X8: a sequence with [|s| >= k], [k >= 1] and a window that holds a
    character other than A, C, G, T does not survive the round trip:
    [pathToSeq (seqToPath s)] fails or is shorter than [s]. *)
Theorem seqToPath_lossy (s : Sequence) (numHashes : nat) (pos : nat) :
  (1 <= k)%nat -> (pos + k <= length s)%nat ->
  validKmerAt s k pos = false ->
  seqToPath (Kmer := Kmer) (RollingHash := RollingHash) s k numHashes
    ≫= pathToSeq <> Some s.
Proof.
  intros Hk1 Hpos Hbad.
  rewrite seqToPath_fmap by lia. simpl.
  assert (Hlen : (length (kmerPositions s k) < length s + 1 - k)%nat).
  { unfold kmerPositions.
    pose proof (filter_length_lt (validKmerAt s k)
                  (seq 0 (length s + 1 - k)) pos) as Hlt.
    rewrite length_seq in Hlt. apply Hlt; [|assumption].
    apply in_seq. lia. }
  destruct (kmerPositions s k) as [|p ps] eqn:E; simpl; [discriminate|].
  rewrite fold_left_snoc. intros [= Heq].
  apply (f_equal length) in Heq.
  assert (Hp : validKmerAt s k p = true).
  { apply kmerPositions_valid. rewrite E. now left. }
  rewrite Kmer_str_of in Heq.
  - rewrite length_app, length_fmap, length_fmap in Heq.
    rewrite length_kmerAt in Heq by now apply validKmerAt_fits.
    simpl in Hlen. lia.
  - apply length_kmerAt. now apply validKmerAt_fits.
  - unfold validKmerAt in Hp. apply andb_true_iff in Hp. tauto.
Qed.

End PathsOfSequences.

Lemma seqToPath_walk_witness :
  exists path,
    seqToPath (Kmer := Toy.Kmer) (RollingHash := Toy.RollingHash)
      ToyRun.linear 4 1 = Some path /\
    length path = 13%nat.
Proof.
  destruct (seqToPath_walk (Kmer := Toy.Kmer)
              (RollingHash := Toy.RollingHash) 4 Toy_Kmer_str_of
              ToyRun.linear 1)
    as (path & Hp & Hlen & _).
  - vm_compute. lia.
  - reflexivity.
  - exists path. split; [assumption|]. exact Hlen.
Defined.

Lemma pathToSeq_length_witness :
  exists s,
    pathToSeq (Kmer := Toy.Kmer) (RollingHash := Toy.RollingHash)
      [(Toy.seqOf "ACGT", [27]); (Toy.seqOf "CGTA", [108])] = Some s /\
    length s = 5%nat.
Proof.
  destruct (pathToSeq_length (Kmer := Toy.Kmer)
              (RollingHash := Toy.RollingHash) 4
              [(Toy.seqOf "ACGT", [27]); (Toy.seqOf "CGTA", [108])])
    as (s & Hs & Hlen & _).
  - repeat constructor.
  - exists s. split; [assumption|]. exact Hlen.
Defined.

Lemma seqToPath_lossy_witness :
  seqToPath (Kmer := Toy.Kmer) (RollingHash := Toy.RollingHash)
    (Toy.seqOf "ACGTNACGT") 4 1 ≫= pathToSeq
  <> Some (Toy.seqOf "ACGTNACGT").
Proof.
  apply (seqToPath_lossy (Kmer := Toy.Kmer) (RollingHash := Toy.RollingHash)
           4 Toy_Kmer_str_of _ 1 1%nat).
  - lia.
  - vm_compute. lia.
  - reflexivity.
Defined.

Example seqToPath_lossy_toy :
  seqToPath (Kmer := Toy.Kmer) (RollingHash := Toy.RollingHash)
    (Toy.seqOf "ACGTNACGT") 4 1 ≫= pathToSeq
  = Some (Toy.seqOf "ACGTT").
Proof. reflexivity. Qed.

(** ** [splitPath], further *)

Section SplitPathMore.

Context {G V : Type} `{Countable V} `{!GraphT G V}.

Variable dbg : G.
Variable minBranchLen : Z.

Lemma splitFrom_unbranched (cur l : Path V) :
  Forall (fun v => isBranching dbg minBranchLen v = false) l ->
  splitFrom dbg minBranchLen cur l
  = if (1 <? length (cur ++ l))%nat then [cur ++ l] else [].
Proof.
  revert cur. induction l as [|v l IH]; intros cur Hall; simpl.
  - now rewrite app_nil_r.
  - apply Forall_cons in Hall as [Hv Hl]. rewrite Hv.
    rewrite IH by assumption. now rewrite <- app_assoc.
Qed.

(** X9: a path without a branching vertex is returned whole, as the only
    segment, when it has two vertices or more; a path of at most one such
    vertex gives no segment. *)
Theorem splitPath_unbranched (p : Path V) :
  Forall (fun v => isBranching dbg minBranchLen v = false) p ->
  splitPath p dbg minBranchLen = if (1 <? length p)%nat then [p] else [].
Proof.
  intros Hall. rewrite splitPath_splitFrom.
  now rewrite splitFrom_unbranched.
Qed.

(** X10: no segment of [splitPath p] is empty, and a segment of one
    vertex can only be the first one, made of the first vertex of [p],
    which is then branching. *)
Theorem splitPath_segment_sizes (p : Path V) (i : nat) (s : Path V) :
  splitPath p dbg minBranchLen !! i = Some s ->
  (1 <= length s)%nat /\
  (length s = 1%nat ->
   i = 0%nat /\
   exists v, s = [v] /\ head p = Some v /\
             isBranching dbg minBranchLen v = true).
Proof.
  rewrite splitPath_splitFrom. destruct p as [|v l]; simpl.
  - now rewrite lookup_nil.
  - destruct (isBranching dbg minBranchLen v) eqn:Ev.
    + destruct i as [|i]; simpl.
      * intros [= <-]. split; [simpl; lia|]. intros _.
        split; [reflexivity|]. exists v. auto.
      * intros Hs. apply splitFrom_later_length in Hs; [|congruence]. lia.
    + intros Hs. apply splitFrom_later_length in Hs; [|congruence]. lia.
Qed.

Lemma splitFrom_infix (cur l s : Path V) :
  s ∈ splitFrom dbg minBranchLen cur l ->
  exists l1 l2, cur ++ l = l1 ++ s ++ l2.
Proof.
  revert cur. induction l as [|v l IH]; intros cur; simpl.
  - destruct (1 <? length cur)%nat; [|now rewrite elem_of_nil].
    rewrite list_elem_of_singleton. intros ->.
    exists [], []. now rewrite !app_nil_r.
  - destruct (isBranching dbg minBranchLen v).
    + rewrite elem_of_cons. intros [->|Hs].
      * exists [], l. simpl. now rewrite <- app_assoc.
      * destruct (IH _ Hs) as (l1 & l2 & Heq).
        exists (cur ++ l1), l2. simpl in Heq.
        rewrite <- app_assoc. now rewrite <- Heq.
    + intros Hs. destruct (IH _ Hs) as (l1 & l2 & Heq).
      exists l1, l2. rewrite <- Heq, <- app_assoc. reflexivity.
Qed.

(** X11: every segment of [splitPath p] is a run of consecutive vertices
    of [p]. *)
Theorem splitPath_infix (p s : Path V) :
  s ∈ splitPath p dbg minBranchLen -> exists l1 l2, p = l1 ++ s ++ l2.
Proof.
  rewrite splitPath_splitFrom. intros Hs.
  apply splitFrom_infix in Hs. exact Hs.
Qed.

Lemma splitFrom_count (cur l : Path V) :
  (length (List.filter (isBranching dbg minBranchLen) l)
   <= length (splitFrom dbg minBranchLen cur l)
   <= S (length (List.filter (isBranching dbg minBranchLen) l)))%nat.
Proof.
  revert cur. induction l as [|v l IH]; intros cur; simpl.
  - destruct (1 <? length cur)%nat; simpl; lia.
  - destruct (isBranching dbg minBranchLen v); simpl.
    + specialize (IH [v]). lia.
    + apply IH.
Qed.

(** X12: [splitPath p] returns as many segments as [p] has branching
    vertices, or one more. *)
Theorem splitPath_count (p : Path V) :
  (length (List.filter (isBranching dbg minBranchLen) p)
   <= length (splitPath p dbg minBranchLen)
   <= S (length (List.filter (isBranching dbg minBranchLen) p)))%nat.
Proof. rewrite splitPath_splitFrom. apply splitFrom_count. Qed.

End SplitPathMore.

Lemma splitPath_unbranched_witness :
  splitPath [3; 4]%nat tt 5 = [[3; 4]%nat].
Proof.
  apply (splitPath_unbranched tt 5 [3; 4]%nat).
  repeat constructor.
Defined.

Lemma splitPath_segment_sizes_witness :
  (1 <= length [2%nat])%nat /\
  (length [2%nat] = 1%nat ->
   0%nat = 0%nat /\
   exists v, [2%nat] = [v] /\ head [2; 3; 4]%nat = Some v /\
             isBranching tt 5 v = true).
Proof.
  apply (splitPath_segment_sizes tt 5 [2; 3; 4]%nat 0 [2%nat]).
  reflexivity.
Defined.

Lemma splitPath_infix_witness :
  exists l1 l2, [1; 2; 3; 4; 5; 6]%nat = l1 ++ [2; 3; 4; 5]%nat ++ l2.
Proof.
  apply (splitPath_infix tt 5 [1; 2; 3; 4; 5; 6]%nat [2; 3; 4; 5]%nat).
  vm_compute. right. left.
Defined.

(** ** [extendPath], further *)

Section ExtendPathMore.

Context {G V : Type} `{Countable V} `{!GraphT G V}.

Variable graph : G.
Variable minBranchLen : Z.

(** X13: on the empty path [extendPath] does not return: the range
    to erase lies before the start of the path when [minBranchLen > 0],
    and the extension has no vertex to start from otherwise. *)
Theorem extendPath_empty_fails fuel :
  0 <= minBranchLen <= UInt.UINT_MAX ->
  extendPath fuel ([] : Path V) graph minBranchLen = None.
Proof.
  intros Hm. unfold extendPath. simpl length.
  change (Z.of_nat 0 - 1) with (-1).
  replace (UInt.u64 (-1)) with UInt.SIZE_MAX by reflexivity.
  rewrite (u64_small minBranchLen)
    by (unfold UInt.SIZE_MAX, UInt.UINT_MAX in *; lia).
  rewrite Z.min_r by (unfold UInt.SIZE_MAX, UInt.UINT_MAX in *; lia).
  rewrite u32_small by assumption.
  destruct (Z.eq_dec minBranchLen 0) as [->|Hpos].
  - simpl. destruct fuel; reflexivity.
  - unfold erase.
    replace (0 <=? Z.of_nat 0 - minBranchLen) with false
      by (symmetry; apply Z.leb_gt; lia).
    reflexivity.
Qed.

(** X14: when the path has more than [2 * minBranchLen] vertices, the
    vertices between the two chopped ends stay in place: the result of
    [extendPath] is that middle part with vertices added before and
    after it. *)
Theorem extendPath_keeps_middle fuel (path path' : Path V) :
  Z.of_nat (length path) + Z.of_nat fuel <= UInt.SIZE_MAX ->
  0 <= minBranchLen <= UInt.UINT_MAX ->
  2 * minBranchLen < Z.of_nat (length path) ->
  extendPath fuel path graph minBranchLen = Some path' ->
  exists before after,
    path' = before
            ++ drop (Z.to_nat minBranchLen)
                    (take (length path - Z.to_nat minBranchLen) path)
            ++ after.
Proof.
  intros Hlen Hm Hlong. unfold extendPath.
  assert (Hne : path <> []) by (intros ->; simpl in Hlong; lia).
  rewrite chopLen_nat by (try assumption; lia).
  rewrite erase_tail by lia. simpl.
  replace (Nat.min (length path - 1) (Z.to_nat minBranchLen))
    with (Z.to_nat minBranchLen) by lia.
  set (kept1 := take (length path - Z.to_nat minBranchLen) path).
  destruct (extendPathDir fuel kept1 FORWARD graph ∅ minBranchLen)
    as [[path1 visited1]|] eqn:H1; simpl; [|discriminate].
  destruct (extendPathDir_adds _ _ _ _ _ _ _ _ H1)
    as (_ & Hl1 & _ & [after Hafter]).
  assert (Hk1 : length kept1 = (length path - Z.to_nat minBranchLen)%nat).
  { subst kept1. rewrite length_take. lia. }
  rewrite chopLen_nat;
    [| intros ->; simpl in Hl1; lia | lia | assumption].
  rewrite erase_front by lia. simpl.
  replace (Nat.min (length path1 - 1) (Z.to_nat minBranchLen))
    with (Z.to_nat minBranchLen) by lia.
  destruct (extendPathDir fuel (drop (Z.to_nat minBranchLen) path1) REVERSE
              graph visited1 minBranchLen)
    as [[path2 visited2]|] eqn:H2; simpl; [|discriminate].
  destruct (extendPathDir_adds _ _ _ _ _ _ _ _ H2)
    as (_ & _ & _ & [before Hbefore]).
  intros [= <-]. exists before, after.
  rewrite Hbefore, Hafter. f_equal.
  rewrite drop_app_le by lia. reflexivity.
Qed.

End ExtendPathMore.

Lemma extendPath_empty_fails_witness : extendPath 20 ([] : Path nat) tt 5 = None.
Proof.
  apply extendPath_empty_fails. vm_compute. split; discriminate.
Defined.

Lemma extendPath_keeps_middle_witness :
  exists before after,
    seq 0 8 = before ++ drop 1 (take 2 [3; 4; 5]%nat) ++ after.
Proof.
  apply (extendPath_keeps_middle tt 1 20 [3; 4; 5]%nat (seq 0 8)).
  - vm_compute. discriminate.
  - vm_compute. split; discriminate.
  - simpl. lia.
  - vm_compute. reflexivity.
Defined.

(** A path of fewer vertices need not keep any: from vertex 4 alone, with
    [minBranchLen = 5], the result is vertex 7 alone. *)
Example extendPath_loses_input : extendPath 20 [4%nat] tt 5 = Some [7%nat].
Proof. vm_compute. reflexivity. Qed.

(** ** [trimSeq], further *)

Section TrimMore.

Context {RollingHash : Type} `{!RollingHashT RollingHash}.
Context {B : Type} `{!BloomT B}.

Variable goodKmerSet : B.

(** A sequence all of whose k-mer positions are good is its own longest
    run. *)
Lemma trimSeq_all_good (seq : Sequence) :
  Z.of_nat (length seq) < UNSET ->
  (getKmerSize goodKmerSet <= length seq)%nat ->
  (forall i, (i + getKmerSize goodKmerSet <= length seq)%nat ->
             goodAt seq goodKmerSet i = true) ->
  trimSeq seq goodKmerSet = Some seq.
Proof.
  intros Hbound Hk Hall.
  destruct (trimSeq_cases seq goodKmerSet Hbound)
    as [[_ Hnone]|(start & len & [Hlen Hgood] & Hfit & Hres & Hmax & _)].
  - pose proof (Hnone 0%nat) as H0. rewrite Hall in H0 by lia.
    discriminate.
  - assert (Hrun : goodRun seq goodKmerSet 0
                     (length seq + 1 - getKmerSize goodKmerSet)).
    { split; [lia|]. intros i Hi. apply Hall. lia. }
    apply Hmax in Hrun.
    assert (start = 0%nat) by lia. subst start.
    rewrite Hres, drop_0. f_equal. apply take_ge. lia.
Qed.

(** X15: [trimSeq] leaves a sequence unchanged when every window of [k]
    characters holds only A, C, G, T and is in the filter. *)
Theorem trimSeq_unchanged (seq : Sequence) :
  Z.of_nat (length seq) < UNSET ->
  (getKmerSize goodKmerSet <= length seq)%nat ->
  (forall i, (i + getKmerSize goodKmerSet <= length seq)%nat ->
             goodAt seq goodKmerSet i = true) ->
  trimSeq seq goodKmerSet = Some seq.
Proof. apply trimSeq_all_good. Qed.

(** What [trimSeq] returns, when it is not empty, has all its k-mer
    positions good. *)
Lemma trimSeq_result_good (seq r : Sequence) :
  Z.of_nat (length seq) < UNSET ->
  trimSeq seq goodKmerSet = Some r ->
  (r = [] /\ ((1 <= getKmerSize goodKmerSet)%nat ->
              forall i, goodAt seq goodKmerSet i = false)) \/
  ((getKmerSize goodKmerSet <= length r)%nat /\
   (length r <= length seq)%nat /\
   (1 <= length r + 1 - getKmerSize goodKmerSet)%nat /\
   (exists i, goodAt seq goodKmerSet i = true) /\
   forall j, (j + getKmerSize goodKmerSet <= length r)%nat ->
             goodAt r goodKmerSet j = true).
Proof.
  intros Hbound Hr.
  destruct (trimSeq_cases seq goodKmerSet Hbound)
    as [[Hres Hnone]|(start & len & [Hlen Hgood] & Hfit & Hres & _)].
  - left. rewrite Hres in Hr. injection Hr as <-. auto.
  - right. rewrite Hres in Hr. injection Hr as <-.
    rewrite length_take, length_drop.
    split; [lia|]. split; [lia|]. split; [lia|].
    split; [exists start; apply Hgood; lia|].
    intros j Hj. rewrite goodAt_substring by lia. apply Hgood. lia.
Qed.

(** X16: [trimSeq] is idempotent: trimming its result again changes
    nothing. *)
Theorem trimSeq_idempotent (seq r : Sequence) :
  Z.of_nat (length seq) < UNSET ->
  trimSeq seq goodKmerSet = Some r ->
  trimSeq r goodKmerSet = Some r.
Proof.
  intros Hbound Hr.
  destruct (trimSeq_result_good seq r Hbound Hr)
    as [[-> _]|(Hk & Hle & _ & _ & Hgood)].
  - destruct (trimSeq_cases [] goodKmerSet ltac:(rewrite UNSET_eq; simpl; lia))
      as [[Hres _]|(start & len & _ & _ & Hres & _)]; [assumption|].
    rewrite Hres, drop_nil, take_nil. reflexivity.
  - apply trimSeq_all_good; [lia | assumption | assumption].
Qed.

(** X17: a non-empty result of [trimSeq] passes [allKmersInBloom] for
    the filter it was trimmed against, it starts with a k-mer of the
    filter, and, when [k >= 1], it holds only A, C, G, T. *)
Theorem trimSeq_result_in_bloom (seq r : Sequence) :
  Z.of_nat (length seq) < UNSET ->
  trimSeq seq goodKmerSet = Some r -> r <> [] ->
  allKmersInBloom r goodKmerSet = Some true /\
  goodAt r goodKmerSet 0 = true /\
  ((1 <= getKmerSize goodKmerSet)%nat -> forallb isACGT r = true).
Proof.
  intros Hbound Hr Hne.
  destruct (trimSeq_result_good seq r Hbound Hr)
    as [[-> _]|(Hk & Hle & Hpos & _ & Hgood)]; [congruence|].
  split; [|split].
  - unfold allKmersInBloom.
    destruct (length r <? getKmerSize goodKmerSet)%nat eqn:E;
      [apply Nat.ltb_lt in E; lia|].
    f_equal. apply allContained_true. intros it Hit.
    unfold RollingHashIterator in Hit.
    apply list_elem_of_fmap in Hit as (p & -> & Hp).
    apply list_elem_of_In, kmerPositions_valid in Hp.
    pose proof (Hgood p (validKmerAt_fits _ _ _ Hp)) as Hg.
    unfold goodAt in Hg. apply andb_true_iff in Hg as [_ Hg]. exact Hg.
  - apply Hgood. lia.
  - intros Hk1. apply forallb_forall. intros c Hc.
    apply list_elem_of_In, list_elem_of_lookup in Hc as [i Hi].
    pose proof (lookup_lt_Some _ _ _ Hi) as Hlt.
    set (p := Nat.min i (length r - getKmerSize goodKmerSet)).
    pose proof (Hgood p ltac:(subst p; lia)) as Hg.
    unfold goodAt, validKmerAt in Hg.
    apply andb_true_iff in Hg as [Hv _].
    apply andb_true_iff in Hv as [_ Hv].
    rewrite forallb_forall in Hv. apply Hv.
    apply list_elem_of_In, list_elem_of_lookup. exists (i - p)%nat.
    unfold kmerAt. rewrite lookup_take_lt by (subst p; lia).
    rewrite lookup_drop, <- Hi. f_equal. subst p. lia.
Qed.

(** X18: for [k >= 1], [trimSeq] returns the empty string exactly when no
    k-mer position of the sequence is good. *)
Theorem trimSeq_empty_iff (seq : Sequence) :
  Z.of_nat (length seq) < UNSET ->
  (1 <= getKmerSize goodKmerSet)%nat ->
  (trimSeq seq goodKmerSet = Some [] <->
   forall i, goodAt seq goodKmerSet i = false).
Proof.
  intros Hbound Hk1. split.
  - intros Hr.
    destruct (trimSeq_result_good seq [] Hbound Hr)
      as [[_ Hnone]|(Hk & _)]; [auto | simpl in Hk; lia].
  - intros Hnone.
    destruct (trimSeq_cases seq goodKmerSet Hbound)
      as [[Hres _]|(start & len & [Hlen Hgood] & _)]; [assumption|].
    pose proof (Hgood start ltac:(lia)) as Hg. rewrite Hnone in Hg.
    discriminate.
Qed.

End TrimMore.

Lemma trimSeq_unchanged_witness :
  trimSeq (RollingHash := Toy.RollingHash) ToyRun.linear ToyRun.goodLinear
  = Some ToyRun.linear.
Proof.
  apply (trimSeq_unchanged (RollingHash := Toy.RollingHash)).
  - vm_compute. reflexivity.
  - vm_compute. lia.
  - intros i Hi. change (length ToyRun.linear) with 16%nat in Hi.
    change (getKmerSize ToyRun.goodLinear) with 4%nat in Hi.
    do 13 (destruct i as [|i]; [vm_compute; reflexivity|]). lia.
Defined.

Lemma trimSeq_idempotent_witness :
  trimSeq (RollingHash := Toy.RollingHash) (Toy.seqOf "ACGTACGT") ToyRun.good
  = Some (Toy.seqOf "ACGTACGT").
Proof.
  apply (trimSeq_idempotent (RollingHash := Toy.RollingHash) ToyRun.good
           (Toy.seqOf "TTACGTACNACGTACGT")).
  - vm_compute. reflexivity.
  - vm_compute. reflexivity.
Defined.

Lemma trimSeq_result_in_bloom_witness :
  allKmersInBloom (RollingHash := Toy.RollingHash) (Toy.seqOf "ACGTACGT")
    ToyRun.good = Some true.
Proof.
  apply (trimSeq_result_in_bloom (RollingHash := Toy.RollingHash) ToyRun.good
           (Toy.seqOf "TTACGTACNACGTACGT") (Toy.seqOf "ACGTACGT")).
  - vm_compute. reflexivity.
  - vm_compute. reflexivity.
  - discriminate.
Defined.

Lemma trimSeq_empty_iff_witness :
  trimSeq (RollingHash := Toy.RollingHash) (Toy.seqOf "ACGTACGT") ToyRun.good
  = Some [] <->
  forall i, goodAt (RollingHash := Toy.RollingHash) (Toy.seqOf "ACGTACGT")
              ToyRun.good i = false.
Proof.
  apply (trimSeq_empty_iff (RollingHash := Toy.RollingHash)).
  - vm_compute. reflexivity.
  - vm_compute. lia.
Defined.

(** ** [assemble], further *)

Lemma u64_add_l a b : UInt.u64 (UInt.u64 a + b) = UInt.u64 (a + b).
Proof. unfold UInt.u64, UInt.wrap. apply Zplus_mod_idemp_l. Qed.

Lemma u64_range a : 0 <= UInt.u64 a < 2 ^ 64.
Proof. unfold UInt.u64, UInt.wrap. apply Z.mod_pos_bound. lia. Qed.

Lemma sumBases_app l1 l2 : sumBases (l1 ++ l2) = sumBases l1 + sumBases l2.
Proof.
  induction l1 as [|r l1 IH]; simpl; [reflexivity|]. rewrite IH. lia.
Qed.

Section EmissionFacts.

Context {RollingHash : Type} `{!RollingHashT RollingHash}.

Lemma Emitted_refl (P : string -> Prop) st :
  inRange st -> Emitted (RollingHash := RollingHash) P st st [].
Proof.
  intros [Hc Hb]. unfold Emitted. simpl.
  rewrite app_nil_r, !Z.add_0_r, !u64_small by (unfold UInt.SIZE_MAX; lia).
  split; [reflexivity|]. split; [reflexivity|]. split; [reflexivity|].
  split; [apply bloom_le_refl|]. split.
  - intros rec Hrec. now apply elem_of_nil in Hrec.
  - intros i rec Hi. now rewrite lookup_nil in Hi.
Qed.

Lemma Emitted_trans (P : string -> Prop) st st1 st2 new1 new2 :
  Emitted (RollingHash := RollingHash) P st st1 new1 ->
  Emitted (RollingHash := RollingHash) P st1 st2 new2 ->
  Emitted (RollingHash := RollingHash) P st st2 (new1 ++ new2).
Proof.
  intros (Ho1 & Hc1 & Hb1 & Hle1 & Hin1 & Hid1)
         (Ho2 & Hc2 & Hb2 & Hle2 & Hin2 & Hid2).
  unfold Emitted. split; [|split; [|split; [|split; [|split]]]].
  - rewrite Ho2, Ho1, app_assoc. reflexivity.
  - rewrite Hc2, Hc1, u64_add_l, length_app. f_equal. lia.
  - rewrite Hb2, Hb1, u64_add_l, sumBases_app. f_equal. lia.
  - eapply bloom_le_trans; eassumption.
  - intros rec Hrec. apply elem_of_app in Hrec as [Hrec|Hrec].
    + eapply allKmersInBloom_mono; [exact Hle2|]. now apply Hin1.
    + now apply Hin2.
  - intros i rec Hi.
    destruct (decide (i < length new1)%nat) as [Hlt|Hge].
    + rewrite lookup_app_l in Hi by assumption. now apply Hid1.
    + rewrite lookup_app_r in Hi by lia.
      destruct (Hid2 _ _ Hi) as (readId & HP & Hname).
      exists readId. split; [assumption|].
      rewrite Hname, Hc1, u64_add_l. do 2 f_equal. lia.
Qed.

Lemma Emitted_weaken (P Q : string -> Prop) st st' new :
  (forall readId, P readId -> Q readId) ->
  Emitted (RollingHash := RollingHash) P st st' new ->
  Emitted (RollingHash := RollingHash) Q st st' new.
Proof.
  intros HPQ (Ho & Hc & Hb & Hle & Hin & Hid).
  unfold Emitted. repeat (split; [assumption|]).
  intros i rec Hi. destruct (Hid _ _ Hi) as (readId & HP & Hname).
  exists readId. auto.
Qed.

Lemma Emitted_inRange (P : string -> Prop) st st' new :
  Emitted (RollingHash := RollingHash) P st st' new -> inRange st'.
Proof.
  intros (_ & Hc & Hb & _). unfold inRange. rewrite Hc, Hb.
  split; apply u64_range.
Qed.

(** The critical section writes no record or one. *)
Lemma emitContig_Emitted readId (seq : Sequence) st st' :
  inRange st ->
  emitContig (RollingHash := RollingHash) readId seq st = Some st' ->
  exists new, Emitted (RollingHash := RollingHash) (eq readId) st st' new.
Proof.
  intros Hrange. unfold emitContig.
  destruct (allKmersInBloom seq (assembledKmerSet st)) as [covered|] eqn:E;
    simpl; [|discriminate].
  destruct covered; simpl; intros [= <-].
  - exists []. now apply Emitted_refl.
  - exists [mkFastaRecord (contigName (contigID st) readId) seq].
    assert (Hk : (bf_kmerSize (assembledKmerSet st) <= length seq)%nat).
    { unfold allKmersInBloom in E. simpl in E.
      destruct (length seq <? bf_kmerSize (assembledKmerSet st))%nat eqn:El;
        [discriminate|]. now apply Nat.ltb_ge in El. }
    destruct Hrange as [Hc Hb].
    unfold Emitted. simpl. split; [reflexivity|]. split; [reflexivity|].
    split; [unfold recordBases; simpl; now rewrite Z.add_0_r|].
    split; [apply addKmersToBloom_le|]. split.
    + intros rec Hrec. apply list_elem_of_singleton in Hrec as ->. simpl.
      now apply allKmersInBloom_added.
    + intros i rec Hi.
      destruct i as [|i];
        [|simpl in Hi; rewrite lookup_nil in Hi; discriminate].
      injection Hi as <-. exists readId. split; [reflexivity|]. simpl.
      rewrite Z.add_0_r, u64_small by (unfold UInt.SIZE_MAX; lia).
      reflexivity.
Qed.

End EmissionFacts.

Section AssembleMore.

Context {Kmer RollingHash : Type} `{!KmerT Kmer, !RollingHashT RollingHash}.
Context `{Countable (Kmer * RollingHash)}.
Context {B : Type} `{!BloomT B}.
Context `{!GraphT (RollingBloomDBG B) (Kmer * RollingHash)}.

Lemma processPaths_Emitted fuel graph minBranchLen readId n paths :
  forall i st st',
    inRange st ->
    processPaths fuel graph minBranchLen readId n i paths st = Some st' ->
    exists new, Emitted (RollingHash := RollingHash) (eq readId) st st' new.
Proof.
  induction paths as [|path rest IH]; intros i st st' Hrange; simpl.
  - intros [= <-]. exists []. now apply Emitted_refl.
  - destruct (if (i =? 0)%nat || (i =? n - 1)%nat
              then extendPath fuel path graph minBranchLen
              else Some path) as [path'|]; simpl; [|discriminate].
    destruct (pathToSeq path') as [seq|]; simpl; [|discriminate].
    destruct (emitContig readId seq st) as [st1|] eqn:E1; simpl;
      [|discriminate].
    intros Hrest.
    destruct (emitContig_Emitted _ _ _ _ Hrange E1) as (new1 & Hnew1).
    destruct (IH _ _ _ (Emitted_inRange _ _ _ _ Hnew1) Hrest)
      as (new2 & Hnew2).
    exists (new1 ++ new2). eapply Emitted_trans; eassumption.
Qed.

Lemma incr_Emitted (P : string -> Prop) st :
  inRange st ->
  Emitted (RollingHash := RollingHash) P st (incrReadsProcessed st) [] /\
  Emitted (RollingHash := RollingHash) P st (incrReadsExtended st) [].
Proof.
  intros Hrange.
  pose proof (Emitted_refl (RollingHash := RollingHash) P st Hrange) as Hr.
  split; exact Hr.
Qed.

Lemma processRead_Emitted fuel (goodKmerSet : B) graph rec st st' :
  inRange st ->
  processRead fuel goodKmerSet graph rec st = Some st' ->
  exists new,
    Emitted (RollingHash := RollingHash) (eq (fr_id rec)) st st' new.
Proof.
  intros Hrange. unfold processRead.
  destruct (skipRead goodKmerSet rec st) as [[|]|]; simpl; [| |discriminate].
  - intros [= <-]. exists []. now apply incr_Emitted.
  - destruct (seqToPath _ _ _) as [path|]; simpl; [|discriminate].
    destruct (processPaths _ _ _ _ _ _ _ st) as [st1|] eqn:Ep; simpl;
      [|discriminate].
    intros [= <-].
    destruct (processPaths_Emitted _ _ _ _ _ _ _ _ _ Hrange Ep)
      as (new & Hnew).
    exists new. exact Hnew.
Qed.

Lemma assembleReads_Emitted fuel (goodKmerSet : B) graph reads :
  forall st st',
    inRange st ->
    assembleReads fuel goodKmerSet graph reads st = Some st' ->
    exists new,
      Emitted (RollingHash := RollingHash)
        (fun readId => exists rec, rec ∈ reads /\ readId = fr_id rec)
        st st' new.
Proof.
  induction reads as [|rec rest IH]; intros st st' Hrange; simpl.
  - intros [= <-]. exists []. now apply Emitted_refl.
  - destruct (processRead fuel goodKmerSet graph rec st) as [st1|] eqn:E1;
      simpl; [|discriminate].
    intros Hrest.
    destruct (processRead_Emitted _ _ _ _ _ _ Hrange E1) as (new1 & Hnew1).
    destruct (IH _ _ (Emitted_inRange _ _ _ _ Hnew1) Hrest)
      as (new2 & Hnew2).
    exists (new1 ++ new2). eapply Emitted_trans.
    + eapply Emitted_weaken; [|exact Hnew1].
      intros readId <-. exists rec. split; [now left | reflexivity].
    + eapply Emitted_weaken; [|exact Hnew2].
      intros readId (r & Hr & ->). exists r. split; [now right | reflexivity].
Qed.

Lemma assemble_Emitted fuel reads genomeSize (goodKmerSet : B) st :
  assemble fuel reads genomeSize goodKmerSet = Some st ->
  exists size,
    roundUpToMultiple 64 genomeSize 64 = Some size /\
    Emitted (RollingHash := RollingHash)
      (fun readId => exists rec, rec ∈ reads /\ readId = fr_id rec)
      (mkAssemblyState
         (mkBloomFilter ∅ size (getHashNum goodKmerSet)
                        (getKmerSize goodKmerSet))
         0 [] (mkAssemblyCounters 0 0 0))
      st (out st).
Proof.
  unfold assemble.
  destruct (roundUpToMultiple 64 genomeSize 64) as [size|]; simpl;
    [|discriminate].
  intros Hrun. exists size. split; [reflexivity|].
  apply assembleReads_Emitted in Hrun as (new & Hnew).
  - pose proof Hnew as (Hout & _). simpl in Hout. now rewrite Hout.
  - unfold inRange. simpl. lia.
Qed.

(** X19: in the output of [assemble] the contig numbers run from 0 in
    the order of the records: the record at index [i] is named
    [<i> read:<id>] for the identifier of one of the reads, and the next
    contig number is the number of records written. *)
Theorem assemble_contig_ids fuel reads genomeSize (goodKmerSet : B) st :
  assemble fuel reads genomeSize goodKmerSet = Some st ->
  contigID st = UInt.u64 (Z.of_nat (length (out st))) /\
  forall i rec, out st !! i = Some rec ->
    exists read, read ∈ reads /\
      fr_id rec = contigName (UInt.u64 (Z.of_nat i)) (fr_id read).
Proof.
  intros Hrun.
  destruct (assemble_Emitted _ _ _ _ _ Hrun)
    as (size & _ & _ & Hc & _ & _ & _ & Hid).
  simpl in Hc, Hid. split; [exact Hc|].
  intros i rec Hi. destruct (Hid _ _ Hi) as (readId & (r & Hr & ->) & Hname).
  exists r. split; [assumption|]. exact Hname.
Qed.

(** X20: at the end of [assemble], [basesAssembled] is the sum of the
    lengths of the records written, each taken as [unsigned], in
    [size_t]. *)
Theorem assemble_bases fuel reads genomeSize (goodKmerSet : B) st :
  assemble fuel reads genomeSize goodKmerSet = Some st ->
  basesAssembled (counters st) = UInt.u64 (sumBases (out st)).
Proof.
  intros Hrun.
  destruct (assemble_Emitted _ _ _ _ _ Hrun) as (size & _ & _ & _ & Hb & _).
  exact Hb.
Qed.

(** X21: every contig that [assemble] has written has all its k-mers in
    the assembled filter at the end, and at least [k] characters. *)
Theorem assemble_contigs_covered fuel reads genomeSize (goodKmerSet : B)
    st rec :
  assemble fuel reads genomeSize goodKmerSet = Some st ->
  rec ∈ out st ->
  allKmersInBloom (RollingHash := RollingHash) (fr_seq rec)
    (assembledKmerSet st) = Some true /\
  (getKmerSize goodKmerSet <= length (fr_seq rec))%nat.
Proof.
  intros Hrun Hrec.
  destruct (assemble_Emitted _ _ _ _ _ Hrun)
    as (size & _ & _ & _ & _ & Hle & Hin & _).
  specialize (Hin rec Hrec). split; [exact Hin|].
  destruct Hle as (_ & _ & _ & Hk). simpl in Hk.
  unfold allKmersInBloom in Hin. simpl in Hin.
  destruct (length (fr_seq rec) <? bf_kmerSize (assembledKmerSet st))%nat
    eqn:E; [discriminate|].
  apply Nat.ltb_ge in E. lia.
Qed.

(** A read all of whose k-mers are in the assembled filter is skipped. *)
Lemma skipRead_covered (goodKmerSet : B) rec st :
  allKmersInBloom (RollingHash := RollingHash) (fr_seq rec)
    (assembledKmerSet st) = Some true ->
  skipRead (RollingHash := RollingHash) goodKmerSet rec st = Some true.
Proof.
  intros Hcov. unfold skipRead.
  destruct (length (fr_seq rec) <? getKmerSize goodKmerSet)%nat eqn:El;
    [reflexivity|].
  apply Nat.ltb_ge in El. simpl negb. cbv iota.
  rewrite (allKmersInBloom_long (RollingHash := RollingHash)
             (fr_seq rec) goodKmerSet El).
  destruct (allContained goodKmerSet _); simpl; [|reflexivity].
  rewrite Hcov. reflexivity.
Qed.

(** X22: a contig that [assemble] has written, read again as a read
    under any identifier, is skipped: only [readsProcessed] changes. *)
Theorem assemble_contig_skipped fuel reads genomeSize (goodKmerSet : B)
    st rec readId :
  assemble fuel reads genomeSize goodKmerSet = Some st ->
  rec ∈ out st ->
  processRead fuel goodKmerSet (mkRollingBloomDBG goodKmerSet)
    (mkFastaRecord readId (fr_seq rec)) st
  = Some (incrReadsProcessed st).
Proof.
  intros Hrun Hrec.
  destruct (assemble_Emitted _ _ _ _ _ Hrun)
    as (size & _ & _ & _ & _ & _ & Hin & _).
  specialize (Hin rec Hrec).
  unfold processRead. rewrite skipRead_covered by exact Hin.
  reflexivity.
Qed.

Lemma processRead_processed fuel (goodKmerSet : B) graph rec st st' :
  processRead fuel goodKmerSet graph rec st = Some st' ->
  readsProcessed (counters st')
    = UInt.u64 (readsProcessed (counters st) + 1) /\
  (readsExtended (counters st') = readsExtended (counters st) \/
   readsExtended (counters st')
     = UInt.u64 (readsExtended (counters st) + 1)).
Proof.
  unfold processRead.
  destruct (skipRead goodKmerSet rec st) as [[|]|]; simpl; [| |discriminate].
  - intros [= <-]. simpl. auto.
  - destruct (seqToPath _ _ _) as [path|]; simpl; [|discriminate].
    destruct (processPaths _ _ _ _ _ _ _ st) as [st1|] eqn:Ep; simpl;
      [|discriminate].
    intros [= <-]. apply processPaths_counters in Ep as [He Hp].
    simpl. rewrite He, Hp. auto.
Qed.

Lemma assembleReads_processed fuel (goodKmerSet : B) graph reads :
  forall st st',
    0 <= readsProcessed (counters st) < 2 ^ 64 ->
    0 <= readsExtended (counters st) < 2 ^ 64 ->
    assembleReads fuel goodKmerSet graph reads st = Some st' ->
    readsProcessed (counters st')
      = UInt.u64 (readsProcessed (counters st) + Z.of_nat (length reads)) /\
    exists extended,
      (extended <= length reads)%nat /\
      readsExtended (counters st')
        = UInt.u64 (readsExtended (counters st) + Z.of_nat extended).
Proof.
  induction reads as [|rec rest IH]; intros st st' Hp0 He0; simpl.
  - intros [= <-].
    rewrite !Z.add_0_r, !u64_small by (unfold UInt.SIZE_MAX; lia).
    split; [reflexivity|]. exists 0%nat. split; [lia|].
    rewrite Z.add_0_r, u64_small by (unfold UInt.SIZE_MAX; lia).
    reflexivity.
  - destruct (processRead fuel goodKmerSet graph rec st) as [st1|] eqn:E1;
      simpl; [|discriminate].
    intros Hrest.
    apply processRead_processed in E1 as (Hp1 & He1).
    assert (He1r : 0 <= readsExtended (counters st1) < 2 ^ 64).
    { destruct He1 as [->| ->]; [assumption | apply u64_range]. }
    apply IH in Hrest as (Hp & extended & Hle & He);
      [| rewrite Hp1; apply u64_range | assumption].
    split.
    + rewrite Hp, Hp1, u64_add_l. f_equal. lia.
    + destruct He1 as [He1|He1].
      * exists extended. split; [lia|]. now rewrite He, He1.
      * exists (S extended). split; [lia|].
        rewrite He, He1, u64_add_l. f_equal. lia.
Qed.

(** X23: at the end of [assemble], [readsProcessed] is the number of
    reads, in [size_t], and [readsExtended] is the number of some of
    them. *)
Theorem assemble_reads_counted fuel reads genomeSize (goodKmerSet : B) st :
  assemble fuel reads genomeSize goodKmerSet = Some st ->
  readsProcessed (counters st) = UInt.u64 (Z.of_nat (length reads)) /\
  exists extended,
    (extended <= length reads)%nat /\
    readsExtended (counters st) = UInt.u64 (Z.of_nat extended).
Proof.
  unfold assemble.
  destruct (roundUpToMultiple 64 genomeSize 64) as [size|]; simpl;
    [|discriminate].
  intros Hrun. apply assembleReads_processed in Hrun; simpl; [|lia|lia].
  exact Hrun.
Qed.

(** X24: a read without a k-mer position that the iterator visits, such
    as a run of N or a read of fewer than [k] characters, is skipped. *)
Theorem skipRead_no_kmer (goodKmerSet : B) rec st :
  getKmerSize goodKmerSet = bf_kmerSize (assembledKmerSet st) ->
  (forall pos,
     validKmerAt (fr_seq rec) (getKmerSize goodKmerSet) pos = false) ->
  skipRead (RollingHash := RollingHash) goodKmerSet rec st = Some true.
Proof.
  intros Hk Hnone.
  destruct (le_lt_dec (getKmerSize goodKmerSet) (length (fr_seq rec)))
    as [Hlong|Hshort].
  - apply skipRead_covered.
    apply allKmersInBloom_none.
    + intros pos. rewrite <- Hk. apply Hnone.
    + lia.
  - unfold skipRead. apply Nat.ltb_lt in Hshort. now rewrite Hshort.
Qed.

End AssembleMore.

Lemma assemble_contig_ids_witness :
  exists st,
    assemble (Kmer := Toy.Kmer) (RollingHash := Toy.RollingHash) 300
      [ToyRun.readLinear; ToyRun.readInner; ToyRun.readShort] 200
      ToyRun.goodLinear = Some st /\
    contigID st = UInt.u64 (Z.of_nat (length (out st))).
Proof.
  destruct (assemble (Kmer := Toy.Kmer) (RollingHash := Toy.RollingHash) 300
              [ToyRun.readLinear; ToyRun.readInner; ToyRun.readShort] 200
              ToyRun.goodLinear) as [st|] eqn:E;
    [|vm_compute in E; discriminate].
  exists st. split; [reflexivity|].
  apply (assemble_contig_ids _ _ _ _ _ E).
Defined.

Lemma assemble_bases_witness :
  exists st,
    assemble (Kmer := Toy.Kmer) (RollingHash := Toy.RollingHash) 300
      [ToyRun.readLinear; ToyRun.readInner; ToyRun.readShort] 200
      ToyRun.goodLinear = Some st /\
    basesAssembled (counters st) = UInt.u64 (sumBases (out st)).
Proof.
  destruct (assemble (Kmer := Toy.Kmer) (RollingHash := Toy.RollingHash) 300
              [ToyRun.readLinear; ToyRun.readInner; ToyRun.readShort] 200
              ToyRun.goodLinear) as [st|] eqn:E;
    [|vm_compute in E; discriminate].
  exists st. split; [reflexivity|].
  apply (assemble_bases _ _ _ _ _ E).
Defined.

Lemma assemble_reads_counted_witness :
  exists st,
    assemble (Kmer := Toy.Kmer) (RollingHash := Toy.RollingHash) 300
      [ToyRun.readLinear; ToyRun.readInner; ToyRun.readShort] 200
      ToyRun.goodLinear = Some st /\
    readsProcessed (counters st) = UInt.u64 3.
Proof.
  destruct (assemble (Kmer := Toy.Kmer) (RollingHash := Toy.RollingHash) 300
              [ToyRun.readLinear; ToyRun.readInner; ToyRun.readShort] 200
              ToyRun.goodLinear) as [st|] eqn:E;
    [|vm_compute in E; discriminate].
  exists st. split; [reflexivity|].
  apply (assemble_reads_counted _ _ _ _ _ E).
Defined.

Lemma assemble_contigs_covered_witness :
  exists st,
    assemble (Kmer := Toy.Kmer) (RollingHash := Toy.RollingHash) 300
      [ToyRun.readLinear] 200 ToyRun.goodLinear = Some st /\
    forall rec, rec ∈ out st ->
      allKmersInBloom (RollingHash := Toy.RollingHash) (fr_seq rec)
        (assembledKmerSet st) = Some true.
Proof.
  destruct (assemble (Kmer := Toy.Kmer) (RollingHash := Toy.RollingHash) 300
              [ToyRun.readLinear] 200 ToyRun.goodLinear) as [st|] eqn:E;
    [|vm_compute in E; discriminate].
  exists st. split; [reflexivity|]. intros rec Hrec.
  apply (assemble_contigs_covered _ _ _ _ _ _ E Hrec).
Defined.

Lemma assemble_contig_skipped_witness :
  exists st,
    assemble (Kmer := Toy.Kmer) (RollingHash := Toy.RollingHash) 300
      [ToyRun.readLinear] 200 ToyRun.goodLinear = Some st /\
    forall rec, rec ∈ out st ->
      processRead (Kmer := Toy.Kmer) (RollingHash := Toy.RollingHash) 300
        ToyRun.goodLinear (mkRollingBloomDBG ToyRun.goodLinear)
        (mkFastaRecord "again" (fr_seq rec)) st
      = Some (incrReadsProcessed st).
Proof.
  destruct (assemble (Kmer := Toy.Kmer) (RollingHash := Toy.RollingHash) 300
              [ToyRun.readLinear] 200 ToyRun.goodLinear) as [st|] eqn:E;
    [|vm_compute in E; discriminate].
  exists st. split; [reflexivity|]. intros rec Hrec.
  apply (assemble_contig_skipped _ _ _ _ _ _ _ E Hrec).
Defined.

Lemma skipRead_no_kmer_witness :
  skipRead (RollingHash := Toy.RollingHash) ToyRun.goodLinear
    (mkFastaRecord "n" (Toy.seqOf "NNNNNN")) ToyRun.start = Some true.
Proof.
  apply (skipRead_no_kmer (RollingHash := Toy.RollingHash)).
  - reflexivity.
  - intros pos. unfold validKmerAt.
    destruct (pos + _ <=? _)%nat eqn:E; [|reflexivity].
    apply Nat.leb_le in E. simpl in E.
    do 3 (destruct pos as [|pos]; [reflexivity|]). simpl in E. lia.
Defined.

(** ** [loadSeq] and [loadFile] *)

Section LoadFacts.

Context {RollingHash : Type} `{!RollingHashT RollingHash}.

Lemma loadSeq_addKmersToBloom (bloom : BloomFilter) (seq : Sequence) :
  loadSeq bloom seq = addKmersToBloom seq bloom.
Proof. reflexivity. Qed.

Lemma loadSeq_comm (s t : Sequence) F :
  loadSeq (loadSeq F s) t = loadSeq (loadSeq F t) s.
Proof.
  rewrite !loadSeq_addKmersToBloom, !addKmersToBloom_bits. simpl. f_equal.
  unfold bf_index. simpl.
  rewrite <- !(assoc_L (∪)). f_equal. apply (comm_L (∪)).
Qed.

Lemma fold_loadSeq_le (input : list Sequence) F :
  bloom_le F (fold_left loadSeq input F).
Proof.
  revert F. induction input as [|s input IH]; intros F; simpl.
  - apply bloom_le_refl.
  - eapply bloom_le_trans; [|apply IH].
    rewrite loadSeq_addKmersToBloom. apply addKmersToBloom_le.
Qed.

(** What one pass of the critical section [in] takes from the input. *)
Lemma fillBuffer_split (input : list Sequence) :
  forall buffer bufferSize,
    exists taken,
      fillBuffer input buffer bufferSize
      = (buffer ++ taken, drop (length taken) input) /\
      taken `prefix_of` input /\
      (bufferSize < BUFFER_SIZE -> input <> [] -> taken <> []).
Proof.
  induction input as [|s input IH]; intros buffer bufferSize; simpl.
  - exists []. rewrite app_nil_r.
    destruct (bufferSize <? BUFFER_SIZE); simpl; split; try reflexivity;
      split; try reflexivity; congruence.
  - destruct (bufferSize <? BUFFER_SIZE) eqn:E.
    + destruct (IH (buffer ++ [s])
                   (UInt.u64 (bufferSize + Z.of_nat (length s))))
        as (taken & Heq & Hpre & _).
      exists (s :: taken). rewrite Heq, <- app_assoc. simpl.
      split; [reflexivity|]. split; [now apply prefix_cons | congruence].
    + exists []. rewrite app_nil_r. simpl. split; [reflexivity|].
      split; [apply prefix_nil|]. apply Z.ltb_ge in E. lia.
Qed.

Lemma loadBuffer_fold verbose (buffer : list Sequence) F count :
  0 <= count < 2 ^ 64 ->
  loadBuffer verbose buffer (F, count)
  = (fold_left loadSeq buffer F,
     if verbose then UInt.u64 (count + Z.of_nat (length buffer)) else count).
Proof.
  revert F count. induction buffer as [|s buffer IH]; intros F count Hc.
  - simpl. rewrite Z.add_0_r, u64_small by (unfold UInt.SIZE_MAX; lia).
    now destruct verbose.
  - unfold loadBuffer in *. simpl fold_left. cbn [fst snd].
    destruct verbose.
    + rewrite IH by apply u64_range. rewrite u64_add_l.
      do 2 f_equal. simpl length. lia.
    + rewrite IH by assumption. reflexivity.
Qed.

Lemma loadBuffer_app verbose (l1 l2 : list Sequence) st :
  loadBuffer verbose (l1 ++ l2) st
  = loadBuffer verbose l2 (loadBuffer verbose l1 st).
Proof. unfold loadBuffer. apply fold_left_app. Qed.

(** With fuel for every sequence the loop loads them all. *)
Lemma loadLoop_all verbose fuel : forall (input : list Sequence) st,
  (length input < fuel)%nat ->
  loadLoop fuel verbose input st = Some (loadBuffer verbose input st).
Proof.
  induction fuel as [|fuel IH]; intros input st Hfuel; [lia|]. simpl.
  destruct (fillBuffer_split input [] 0) as (taken & Heq & [rest Hpre] & Hne).
  rewrite Heq. subst input. rewrite drop_app_length, app_nil_l.
  destruct taken as [|s taken].
  - simpl. destruct rest as [|s rest]; [reflexivity|].
    exfalso. apply Hne; [unfold BUFFER_SIZE; lia | discriminate | reflexivity].
  - simpl length. cbn [Nat.eqb].
    rewrite IH by (rewrite length_app in Hfuel; simpl in Hfuel; lia).
    now rewrite loadBuffer_app.
Qed.

Lemma loadFile_fold (bloom : BloomFilter) (path : string) (verbose : bool)
    (input : list Sequence) :
  path <> ""%string ->
  loadFile bloom path verbose input
  = Some (fold_left loadSeq input bloom,
          if verbose then UInt.u64 (Z.of_nat (length input)) else 0).
Proof.
  intros Hpath. unfold loadFile.
  destruct (decide (path = ""%string)); [contradiction|].
  rewrite loadLoop_all by lia. rewrite loadBuffer_fold by lia.
  reflexivity.
Qed.

(** X25: [loadFile] loads every sequence of the file, whatever the
    lengths of the sequences and so the cut into buffers: the filter at
    the end is the one that [loadSeq] gives over the sequences in turn,
    and with [verbose] set [readCount] is their number; on an empty path
    the assertion fails. *)
Theorem loadFile_all (bloom : BloomFilter) (path : string) (verbose : bool)
    (input : list Sequence) :
  loadFile bloom path verbose input
  = if decide (path = ""%string) then None
    else Some (fold_left loadSeq input bloom,
               if verbose then UInt.u64 (Z.of_nat (length input)) else 0).
Proof.
  destruct (decide (path = ""%string)) as [->|Hpath].
  - reflexivity.
  - now apply loadFile_fold.
Qed.

Lemma fold_loadSeq_perm (input input' : list Sequence) :
  Permutation input input' ->
  forall F, fold_left loadSeq input F = fold_left loadSeq input' F.
Proof.
  induction 1 as [|s l l' _ IH|s t l|l1 l2 l3 _ IH1 _ IH2]; intros F; simpl.
  - reflexivity.
  - apply IH.
  - now rewrite loadSeq_comm.
  - now rewrite IH1.
Qed.

(** X26: the filter that [loadFile] builds does not depend on the order
    of the sequences in the file. *)
Theorem loadFile_order (bloom : BloomFilter) (path : string) (verbose : bool)
    (input input' : list Sequence) :
  Permutation input input' ->
  fst <$> loadFile bloom path verbose input
  = fst <$> loadFile bloom path verbose input'.
Proof.
  intros Hperm.
  destruct (decide (path = ""%string)) as [->|Hpath]; [reflexivity|].
  rewrite !loadFile_fold by assumption. simpl.
  now rewrite (fold_loadSeq_perm _ _ Hperm).
Qed.

(** X27: after [loadFile], every sequence of the file that has at least
    [k] characters passes [allKmersInBloom]. *)
Theorem loadFile_contains (bloom bloom' : BloomFilter) (path : string)
    (verbose : bool) (input : list Sequence) (count : Z) (seq : Sequence) :
  loadFile bloom path verbose input = Some (bloom', count) ->
  seq ∈ input -> (bf_kmerSize bloom <= length seq)%nat ->
  allKmersInBloom seq bloom' = Some true.
Proof.
  destruct (decide (path = ""%string)) as [->|Hpath]; [discriminate|].
  rewrite loadFile_fold by assumption.
  intros [= <- _] Hin Hk.
  apply list_elem_of_split in Hin as (l1 & l2 & ->).
  rewrite fold_left_app. simpl.
  eapply allKmersInBloom_mono; [apply fold_loadSeq_le|].
  rewrite loadSeq_addKmersToBloom. apply allKmersInBloom_added.
  destruct (fold_loadSeq_le l1 bloom) as (_ & _ & _ & Hkk). lia.
Qed.

End LoadFacts.

Lemma loadFile_order_witness :
  fst <$> loadFile (RollingHash := Toy.RollingHash) Toy.emptyFilter "reads.fa"
            false [ToyRun.linear; Toy.seqOf "ACGTACGTAC"]
  = fst <$> loadFile (RollingHash := Toy.RollingHash) Toy.emptyFilter
              "reads.fa" false [Toy.seqOf "ACGTACGTAC"; ToyRun.linear].
Proof.
  apply (loadFile_order (RollingHash := Toy.RollingHash)).
  apply perm_swap.
Defined.

Lemma loadFile_contains_witness :
  exists bloom',
    loadFile (RollingHash := Toy.RollingHash) Toy.emptyFilter "reads.fa"
      true [ToyRun.linear; Toy.seqOf "ACGTACGTAC"] = Some (bloom', 2) /\
    allKmersInBloom (RollingHash := Toy.RollingHash) ToyRun.linear bloom'
    = Some true.
Proof.
  destruct (loadFile (RollingHash := Toy.RollingHash) Toy.emptyFilter
              "reads.fa" true [ToyRun.linear; Toy.seqOf "ACGTACGTAC"])
    as [[bloom' count]|] eqn:E; [|vm_compute in E; discriminate].
  assert (count = 2) as -> by (vm_compute in E; congruence).
  exists bloom'. split; [reflexivity|].
  apply (loadFile_contains (RollingHash := Toy.RollingHash) _ _ _ _ _ _ _ E).
  - now left.
  - vm_compute. lia.
Defined.

(** ** [GraphvizBFSVisitor] *)

Section VisitorFacts.

Context {Kmer RollingHash : Type} `{!KmerT Kmer}.
Context {E G : Type} `{!EdgeT E G (Kmer * RollingHash)}.

Lemma visitor_fold (g : G)
    (events : list (VisitorEvent E (Kmer * RollingHash))) :
  forall vis,
    0 <= m_nodesVisited vis < 2 ^ 64 -> 0 <= m_edgesVisited vis < 2 ^ 64 ->
    fold_left (visitorStep g) events vis
    = mkGraphvizBFSVisitor
        (m_out vis ++ concat (eventLine g <$> events))
        (UInt.u64 (m_nodesVisited vis
                   + Z.of_nat (length (List.filter isDiscover events))))
        (UInt.u64 (m_edgesVisited vis
                   + Z.of_nat (length (List.filter isExamineEdge events)))).
Proof.
  induction events as [|ev events IH]; intros vis Hn He.
  - simpl. rewrite app_nil_r, !Z.add_0_r.
    rewrite !u64_small by (unfold UInt.SIZE_MAX; lia). now destruct vis.
  - simpl fold_left. rewrite IH.
    + rewrite fmap_cons. cbn [concat List.filter].
      destruct ev;
        cbn [visitorStep eventLine isDiscover isExamineEdge m_out
             m_nodesVisited m_edgesVisited length];
        rewrite ?app_nil_l; try reflexivity.
      * rewrite u64_add_l, <- app_assoc, Nat2Z.inj_succ.
        do 2 f_equal. lia.
      * rewrite u64_add_l, <- app_assoc, Nat2Z.inj_succ.
        do 2 f_equal. lia.
    + destruct ev; simpl; try assumption; apply u64_range.
    + destruct ev; simpl; try assumption; apply u64_range.
Qed.

(** X28: a visitor made on a stream, called through any series of hooks
    and then destroyed leaves on the stream the line [digraph g {], one
    line for each [discover_vertex] and [examine_edge] call in the order
    of the calls, and the line [}]; its two counters are the numbers of
    those calls, in [size_t]; the other hooks change nothing. *)
Theorem visitor_output (g : G) (out0 : list ascii)
    (events : list (VisitorEvent E (Kmer * RollingHash))) :
  let vis := fold_left (visitorStep g) events (visitorNew out0) in
  visitorDelete vis
  = out0 ++ list_ascii_of_string "digraph g {" ++ [NL]
         ++ concat (eventLine g <$> events)
         ++ list_ascii_of_string "}" ++ [NL] /\
  getNumNodesVisited vis
  = UInt.u64 (Z.of_nat (length (List.filter isDiscover events))) /\
  getNumEdgesVisited vis
  = UInt.u64 (Z.of_nat (length (List.filter isExamineEdge events))).
Proof.
  intros vis. subst vis. rewrite visitor_fold by (simpl; lia).
  unfold visitorDelete, getNumNodesVisited, getNumEdgesVisited. simpl.
  rewrite <- !app_assoc. simpl. auto.
Qed.

End VisitorFacts.
